(** * Yotome frontend: citation rendering, chat transcript, document admin

    A shallow embedding of the client-side logic of the Yotome assistant
    (components [Chat], [DocumentList], [DocumentUpload] and the helpers of
    [lib/utils.ts] and [lib/api.ts]), with the properties of its
    specification stated and proved over that embedding.

    JavaScript strings are sequences of UTF-16 code units; a code unit is
    modelled as an [N] and a string as a list of code units. *)

From Stdlib Require Import NArith QArith Ascii String Decimal.
From stdpp Require Import base tactics option list gmap strings.

Close Scope Q_scope.

Set Default Proof Using "Type".

(** ** JavaScript strings *)

Definition char := N.
Definition str := list char.

(** A source-level string literal, as code units. *)
Definition js (s : string) : str :=
  (λ a, N_of_ascii a) <$> list_ascii_of_string s.

Definition ch (a : ascii) : char := N_of_ascii a.

Definition LBRACKET : char := ch "[".
Definition RBRACKET : char := ch "]".
Definition HASH : char := ch "#".
Definition COMMA : char := ch ",".

(** The class [\d] of a regular expression without the [u] flag. *)
Definition is_digit (c : char) : bool := ((48 <=? c) && (c <=? 57))%N.

(** ** A backtracking matcher for the fragment of regular expressions used
    by the citation pattern

    [/\[([^\]]+)#(\d+)\]/g] is a sequence of single-character atoms and of
    capture groups around a greedy [+] over a character class. *)

Module Regex.

Inductive charset :=
| CsChar (x : char)        (* a literal character  *)
| CsNotChar (x : char)     (* [^x]                 *)
| CsDigit.                 (* \d                   *)

Definition charset_mem (cs : charset) (c : char) : bool :=
  match cs with
  | CsChar x => (c =? x)%N
  | CsNotChar x => negb (c =? x)%N
  | CsDigit => is_digit c
  end.

Inductive term :=
| Atom (cs : charset)         (* one character of the class            *)
| GroupPlus (cs : charset).   (* ( cs+ ): greedy, captured             *)

Definition regex := list term.

(** [run r s] matches [r] anchored at the start of [s]; on success it
    returns the captures, in order, and the input left after the match.
    A greedy [+] first tries one more iteration and only then what
    follows it, as the backtracking matcher of ECMAScript does. *)
Fixpoint run (r : regex) (s : str) : option (list str * str) :=
  match r with
  | [] => Some ([], s)
  | Atom cs :: r' =>
      match s with
      | c :: s' => if charset_mem cs c then run r' s' else None
      | [] => None
      end
  | GroupPlus cs :: r' =>
      let plus :=
        fix plus (s : str) : option (str * (list str * str)) :=
          match s with
          | c :: s' =>
              if charset_mem cs c then
                match plus s' with
                | Some (cap, res) => Some (c :: cap, res)
                | None =>
                    match run r' s' with
                    | Some res => Some ([c], res)
                    | None => None
                    end
                end
              else None
          | [] => None
          end in
      match plus s with
      | Some (cap, (caps, rest)) => Some (cap :: caps, rest)
      | None => None
      end
  end.

(** The greedy loop of a group, as a function of its own. *)
Fixpoint plus_loop (cs : charset) (r' : regex) (s : str)
  : option (str * (list str * str)) :=
  match s with
  | c :: s' =>
      if charset_mem cs c then
        match plus_loop cs r' s' with
        | Some (cap, res) => Some (c :: cap, res)
        | None =>
            match run r' s' with
            | Some res => Some ([c], res)
            | None => None
            end
        end
      else None
  | [] => None
  end.

(** [RegExpBuiltinExec] for a global regular expression, [lastIndex]
    being the start of [s]: the leftmost position at which the pattern
    matches.  The result is the text skipped, the match [match[0]], the
    captures and the input after the match. *)
Fixpoint exec_from (r : regex) (skipped : str) (s : str)
  : option (str * str * list str * str) :=
  match run r s with
  | Some (caps, rest) =>
      Some (skipped, take (length s - length rest) s, caps, rest)
  | None =>
      match s with
      | c :: s' => exec_from r (skipped ++ [c]) s'
      | [] => None
      end
  end.

(** [RegExp.prototype[Symbol.split]]: [acc] is the text between the end [p]
    of the last match and the current position [q], [s] the input from
    [q] on. *)
Fixpoint split_loop (fuel : nat) (r : regex) (acc s : str) : list str :=
  match fuel with
  | 0 => [acc ++ s]
  | S fuel' =>
      match s with
      | [] => [acc]
      | c :: s' =>
          match run r s with
          | None => split_loop fuel' r (acc ++ [c]) s'
          | Some (caps, rest) =>
              if bool_decide (acc = [] ∧ length rest = length s)
              then split_loop fuel' r (acc ++ [c]) s'
              else acc :: caps ++ split_loop fuel' r [] rest
          end
      end
  end.

Definition split (r : regex) (s : str) : list str :=
  match s with
  | [] => match run r [] with Some _ => [] | None => [[]] end
  | _ => split_loop (2 * length s + 1) r [] s
  end.

End Regex.

Import Regex.

(** [/\[([^\]]+)#(\d+)\]/g], the citation pattern of [Chat.tsx] and of
    [utils.ts]. *)
Definition citationRegex : regex :=
  [ Atom (CsChar LBRACKET);
    GroupPlus (CsNotChar RBRACKET);
    Atom (CsChar HASH);
    GroupPlus CsDigit;
    Atom (CsChar RBRACKET) ].

(** ** The citation renderer ([MessageContent] in [Chat.tsx]) *)

(** What [renderContent] returns for one entry of [parts]: a highlighted
    citation span, a plain span, or [null]. *)
Inductive element :=
| CitationSpan (key : nat) (part : str) (chunkIndex : option str)
| TextSpan (key : nat) (part : str).

(** A template literal prints [undefined] for a missing array entry. *)
Definition show (o : option str) : str := default (js "undefined") o.

(** The [title] attribute of an element. *)
Definition title (e : element) : option str :=
  match e with
  | CitationSpan _ part chunkIndex =>
      Some (js "Source: " ++ part ++ js ", Chunk: " ++ show chunkIndex)
  | TextSpan _ _ => None
  end.

(** The text an element displays; React renders nothing for an undefined
    child. *)
Definition textContent (e : element) : str :=
  match e with
  | CitationSpan _ part chunkIndex =>
      [LBRACKET] ++ part ++ [HASH] ++ default [] chunkIndex ++ [RBRACKET]
  | TextSpan _ part => part
  end.

(** The callback given to [parts.map]. *)
Definition render_part (parts : list str) (index : nat) (part : str)
  : option element :=
  if index mod 3 =? 1 then
    (* a file name *)
    let chunkIndex := parts !! (index + 1) in
    Some (CitationSpan index part chunkIndex)
  else if index mod 3 =? 2 then
    (* a chunk index: handled with its file name *)
    None
  else
    (* regular text *)
    Some (TextSpan index part).

Definition renderContent (text : str) : list (option element) :=
  let parts := split citationRegex text in
  imap (render_part parts) parts.

(** The citation elements of a rendering, in order, as pairs of file name
    and chunk index. *)
Definition citations (out : list (option element)) : list (str * option str) :=
  omap (λ o, match o with
             | Some (CitationSpan _ part chunkIndex) => Some (part, chunkIndex)
             | _ => None
             end) out.

(** The text displayed by a rendering. *)
Definition displayed (out : list (option element)) : str :=
  concat ((λ o, from_option textContent [] o) <$> out).

(** ** [extractCitations] ([lib/utils.ts]) *)

(** The [while ((match = citationRegex.exec(text)) !== null)] loop; [s] is
    the input from [lastIndex] on. *)
Fixpoint extract_loop (fuel : nat) (s : str) : list str :=
  match fuel with
  | 0 => []
  | S fuel' =>
      match exec_from citationRegex [] s with
      | Some (_, match0, _, rest) => match0 :: extract_loop fuel' rest
      | None => []
      end
  end.

Definition extractCitations (text : str) : list str :=
  extract_loop (S (length text)) text.

(** ** Markers, declaratively *)

(** [[fn#ds]] as text. *)
Definition marker_text (fn ds : str) : str :=
  [LBRACKET] ++ fn ++ [HASH] ++ ds ++ [RBRACKET].

(** A well-formed marker: a non-empty file name without [']'] and a
    non-empty sequence of digits. *)
Definition well_formed (fn ds : str) : Prop :=
  fn ≠ [] ∧ (RBRACKET ∉ fn) ∧ ds ≠ [] ∧ Forall (λ c, is_digit c = true) ds.

(** A marker begins at the start of [s]. *)
Definition marker_at (s : str) : Prop :=
  ∃ fn ds rest, well_formed fn ds ∧ s = marker_text fn ds ++ rest.

(** No marker begins inside the prefix [t] of [t ++ tail]. *)
Definition marker_free (t tail : str) : Prop :=
  ∀ i, i < length t → ¬ marker_at (drop i (t ++ tail)).

(** The markers of a text, scanned from the left and not overlapping:
    [Segmented text t0 [(fn1, ds1, t1); ...; (fnN, dsN, tN)]] says that
    [text] is [t0 [fn1#ds1] t1 ... [fnN#dsN] tN] and that each marker is the
    first one that begins after the previous one ends. *)
Inductive Segmented : str → str → list (str * str * str) → Prop :=
| Seg_end t :
    marker_free t [] → Segmented t t []
| Seg_marker t fn ds rest t1 ms :
    well_formed fn ds →
    marker_free t (marker_text fn ds ++ rest) →
    Segmented rest t1 ms →
    Segmented (t ++ marker_text fn ds ++ rest) t ((fn, ds, t1) :: ms).

(** The elements the specification asks for: a plain span per stretch of
    text, a citation span per marker (followed by the [null] that stands
    for its chunk index). *)
Fixpoint elements_from (k : nat) (t0 : str) (ms : list (str * str * str))
  : list (option element) :=
  Some (TextSpan k t0) ::
  match ms with
  | [] => []
  | (fn, ds, t1) :: ms' =>
      Some (CitationSpan (k + 1) fn (Some ds)) :: None ::
      elements_from (k + 3) t1 ms'
  end.

(** The array [String.prototype.split] is specified to return. *)
Fixpoint parts_of (t0 : str) (ms : list (str * str * str)) : list str :=
  t0 ::
  match ms with
  | [] => []
  | (fn, ds, t1) :: ms' => fn :: ds :: parts_of t1 ms'
  end.

(** ** More of JavaScript's strings *)

(** [WhiteSpace] and [LineTerminator] code units, the ones
    [String.prototype.trim] removes. *)
Definition isWhiteSpace (c : char) : bool :=
  ((c =? 9) || (c =? 10) || (c =? 11) || (c =? 12) || (c =? 13) || (c =? 32)
   || (c =? 160) || (c =? 5760) || ((8192 <=? c) && (c <=? 8202))
   || (c =? 8232) || (c =? 8233) || (c =? 8239) || (c =? 8287)
   || (c =? 12288) || (c =? 65279))%N.

Fixpoint trimStart (s : str) : str :=
  match s with
  | c :: s' => if isWhiteSpace c then trimStart s' else s
  | [] => []
  end.

Definition trimEnd (s : str) : str := reverse (trimStart (reverse s)).

Definition trim (s : str) : str := trimEnd (trimStart s).

(** A string is truthy when it is not empty. *)
Definition truthy (s : str) : bool :=
  match s with [] => false | _ => true end.

(** [a || b] for a string that may be undefined. *)
Definition or_else (a : option str) (b : str) : str :=
  match a with
  | Some s => if truthy s then s else b
  | None => b
  end.

Fixpoint uint_digits (d : Decimal.uint) : str :=
  match d with
  | Nil => []
  | D0 d => 48%N :: uint_digits d
  | D1 d => 49%N :: uint_digits d
  | D2 d => 50%N :: uint_digits d
  | D3 d => 51%N :: uint_digits d
  | D4 d => 52%N :: uint_digits d
  | D5 d => 53%N :: uint_digits d
  | D6 d => 54%N :: uint_digits d
  | D7 d => 55%N :: uint_digits d
  | D8 d => 56%N :: uint_digits d
  | D9 d => 57%N :: uint_digits d
  end.

(** An array index in a template literal: its decimal digits. *)
Definition Number_toString (n : nat) : str := uint_digits (Nat.to_uint n).

(** [s.includes(sub)] *)
Fixpoint startsWith (s sub : str) : bool :=
  match sub, s with
  | [], _ => true
  | x :: sub', c :: s' => (c =? x)%N && startsWith s' sub'
  | _ :: _, [] => false
  end.

Fixpoint includes (s sub : str) : bool :=
  startsWith s sub ||
  match s with
  | _ :: s' => includes s' sub
  | [] => false
  end.

(** [s.split(sep)] for a separator of one code unit: [cur] is the piece
    being read. *)
Fixpoint split_on_from (sep : char) (cur : str) (s : str) : list str :=
  match s with
  | [] => [cur]
  | c :: s' =>
      if (c =? sep)%N then cur :: split_on_from sep [] s'
      else split_on_from sep (cur ++ [c]) s'
  end.

Definition split_on (sep : char) (s : str) : list str := split_on_from sep [] s.

(** [pieces.join(sep)] *)
Fixpoint join (sep : str) (pieces : list str) : str :=
  match pieces with
  | [] => []
  | [p] => p
  | p :: ps => p ++ sep ++ join sep ps
  end.

(** ** The data model ([lib/api.ts]) *)

(** A [z.number()] is stored and compared, never computed with. *)
Definition number := Q.

Inductive Role := user | assistant | system.

Record ChatMessage := {
  role : Role;
  content : str
}.

Record SourceCitation := {
  src_doc_id : str;
  src_filename : str;
  chunk_index : number;
  snippet : str;
  score : number
}.

Record TokenUsage := {
  prompt_tokens : number;
  completion_tokens : number;
  total_tokens : number
}.

Record ChatResponse := {
  answer : str;
  sources : list SourceCitation;
  usage : option TokenUsage;
  follow_up : option str
}.

Record DocumentInfo := {
  doc_id : str;
  filename : str;
  size : number;
  mime_type : str;
  uploaded_at : str;
  chunks : number;
  tags : list str
}.

(** The body of [POST /api/chat]. *)
Record ChatRequest := {
  req_messages : list ChatMessage;
  req_stream : bool;
  req_rag_only : bool
}.

(** *** Errors *)

(** The body of an error response, as far as [handleApiError] reads it;
    [detail] and [error] are taken to be strings when present. *)
Record ErrorBody := {
  detail : option str;
  error : option str;
  code : option str
}.

Record AxiosResponse := {
  status : nat;
  data : option ErrorBody
}.

(** What an API call throws: an error of axios (no response, or a status
    outside 2xx), or another error, such as the one of a schema that the
    response does not match. *)
Inductive thrown :=
| AxiosError (message : str) (response : option AxiosResponse)
| OtherError (message : option str).

Record ApiError := {
  api_message : str;
  api_status : option nat;
  api_code : option str
}.

Definition handleApiError (e : thrown) : ApiError :=
  match e with
  | AxiosError msg response =>
      let body := response ≫= data in
      let status := status <$> response in
      let message := or_else (body ≫= detail) (or_else (body ≫= error) msg) in
      let code := body ≫= code in
      {| api_message := message; api_status := status; api_code := code |}
  | OtherError msg =>
      {| api_message := or_else msg (js "An unknown error occurred");
         api_status := None; api_code := None |}
  end.

(** ** The chat transcript ([Chat] in [Chat.tsx]) *)

Module Chat.

(** The state of the component: one field per [useState]. *)
Record State := {
  messages : list ChatMessage;
  input : str;
  isLoading : bool;
  ragOnly : bool;
  sourcesTable : gmap str (list SourceCitation)
}.

Definition initial : State :=
  {| messages := []; input := []; isLoading := false; ragOnly := true;
     sourcesTable := ∅ |}.

(** Code that updates the state and may throw. *)
Definition M (A : Type) : Type := State → State * (thrown + A).

Definition ret {A} (a : A) : M A := λ st, (st, inr a).

Definition bind {A B} (m : M A) (k : A → M B) : M B :=
  λ st, match m st with
        | (st', inr a) => k a st'
        | (st', inl e) => (st', inl e)
        end.

Definition throw {A} (e : thrown) : M A := λ st, (st, inl e).

Notation "x ← m ; k" := (bind m (λ x, k))
  (at level 20, m at level 100, k at level 200, only parsing).
Notation "m ;; k" := (bind m (λ _, k))
  (at level 100, k at level 200, right associativity, only parsing).

(** [try { body } catch (error) { handler }] *)
Definition try_catch {A} (body : M A) (handler : thrown → M A) : M A :=
  λ st, match body st with
        | (st', inl e) => handler e st'
        | r => r
        end.

(** [try { body } finally { fin }] *)
Definition try_finally {A} (body : M A) (fin : M unit) : M A :=
  λ st, match body st with
        | (st', r) =>
            match fin st' with
            | (st'', inl e) => (st'', inl e)
            | (st'', inr _) => (st'', r)
            end
        end.

(** The value of [await p] once [p] has settled. *)
Definition await {A} (settled : thrown + A) : M A :=
  match settled with
  | inr a => ret a
  | inl e => throw e
  end.

(** The setters of [useState], with an updater function. *)
Definition setMessages (f : list ChatMessage → list ChatMessage) : M unit :=
  λ st, ({| messages := f (messages st); input := input st;
            isLoading := isLoading st; ragOnly := ragOnly st;
            sourcesTable := sourcesTable st |}, inr tt).

Definition setInput (s : str) : M unit :=
  λ st, ({| messages := messages st; input := s;
            isLoading := isLoading st; ragOnly := ragOnly st;
            sourcesTable := sourcesTable st |}, inr tt).

Definition setIsLoading (b : bool) : M unit :=
  λ st, ({| messages := messages st; input := input st;
            isLoading := b; ragOnly := ragOnly st;
            sourcesTable := sourcesTable st |}, inr tt).

Definition setRagOnly (b : bool) : M unit :=
  λ st, ({| messages := messages st; input := input st;
            isLoading := isLoading st; ragOnly := b;
            sourcesTable := sourcesTable st |}, inr tt).

Definition setSources
    (f : gmap str (list SourceCitation) → gmap str (list SourceCitation))
  : M unit :=
  λ st, ({| messages := messages st; input := input st;
            isLoading := isLoading st; ragOnly := ragOnly st;
            sourcesTable := f (sourcesTable st) |}, inr tt).

(** [`assistant-${index}`] *)
Definition messageId (index : nat) : str :=
  js "assistant-" ++ Number_toString index.

(** The sources the transcript shows under the message at [index]:
    [sources[`assistant-${index}`]]. *)
Definition sourcesOf (st : State) (index : nat) : option (list SourceCitation) :=
  sourcesTable st !! messageId index.

(** [handleSubmit] up to [await api.chat(newMessages, ragOnly)]: either it
    returns at once, or it posts a request and waits, holding on to
    [newMessages]. *)
Inductive suspension :=
| Returned
| Awaiting (newMessages : list ChatMessage) (request : ChatRequest).

(** The constants of [handleSubmit]. *)
Definition userMessage (st : State) : ChatMessage :=
  {| role := user; content := trim (input st) |}.

Definition newMessages (st : State) : list ChatMessage :=
  messages st ++ [userMessage st].

Definition assistantMessage (response : ChatResponse) : ChatMessage :=
  {| role := assistant; content := answer response |}.

Definition errorMessage (apiError : ApiError) : ChatMessage :=
  {| role := assistant;
     content := js "Sorry, I encountered an error: " ++
                api_message apiError ++ js ". Please try again." |}.

(** The request [api.chat(newMessages, ragOnly)] posts. *)
Definition chatRequest (st : State) : ChatRequest :=
  {| req_messages := newMessages st; req_stream := false;
     req_rag_only := ragOnly st |}.

Definition handleSubmit_start (st : State) : State * suspension :=
  if negb (truthy (trim (input st))) || isLoading st then (st, Returned)
  else
    let st' := (setMessages (λ _, newMessages st) ;;
                setInput [] ;;
                setIsLoading true) st in
    (st'.1, Awaiting (newMessages st) (chatRequest st)).

(** [handleSubmit] from the [await] on, once the call has settled;
    [newMessages] is the constant of the suspended call, the state is the
    one of the component at that time. *)
Definition handleSubmit_resume (newMessages : list ChatMessage)
    (settled : thrown + ChatResponse) : M unit :=
  try_finally
    (try_catch
       (response ← await settled;
        let finalMessages := newMessages ++ [assistantMessage response] in
        setMessages (λ _, finalMessages) ;;
        (* store sources for this message *)
        if 0 <? length (sources response) then
          let messageId := messageId (length finalMessages - 1) in
          setSources (λ prev, <[messageId := sources response]> prev)
        else ret tt)
       (λ error,
        let apiError := handleApiError error in
        setMessages (λ prev, prev ++ [errorMessage apiError])))
    (setIsLoading false).

(** A whole call of [handleSubmit], nothing else happening while it
    waits; [chat] is the answer of the backend to a request.  The result
    is the state left and, on the left, an error the call lets escape. *)
Definition handleSubmit (chat : ChatRequest → thrown + ChatResponse)
    (st : State) : State * (thrown + unit) :=
  match handleSubmit_start st with
  | (st', Returned) => (st', inr tt)
  | (st', Awaiting newMessages request) =>
      handleSubmit_resume newMessages (chat request) st'
  end.

Definition clearChat : M unit :=
  setMessages (λ _, []) ;; setSources (λ _, ∅).

(** *** The component with its requests in flight *)

(** A request posted and not yet settled, with what the suspended
    [handleSubmit] holds on to. *)
Record Pending := {
  held_messages : list ChatMessage;
  posted : ChatRequest
}.

Record World := {
  ui : State;
  inflight : list Pending
}.

Inductive Event :=
| Submit                                          (* the form is submitted *)
| Type_ (s : str)                                 (* the text area changes *)
| ToggleRagOnly
| Clear
| Settle (i : nat) (settled : thrown + ChatResponse). (* a request settles *)

Definition step (w : World) (ev : Event) : World :=
  match ev with
  | Submit =>
      match handleSubmit_start (ui w) with
      | (st', Returned) => {| ui := st'; inflight := inflight w |}
      | (st', Awaiting newMessages request) =>
          {| ui := st';
             inflight := inflight w ++
               [{| held_messages := newMessages; posted := request |}] |}
      end
  | Type_ s => {| ui := (setInput s (ui w)).1; inflight := inflight w |}
  | ToggleRagOnly =>
      {| ui := (setRagOnly (negb (ragOnly (ui w))) (ui w)).1;
         inflight := inflight w |}
  | Clear => {| ui := (clearChat (ui w)).1; inflight := inflight w |}
  | Settle i settled =>
      match inflight w !! i with
      | Some p =>
          {| ui := (handleSubmit_resume (held_messages p) settled (ui w)).1;
             inflight := delete i (inflight w) |}
      | None => w
      end
  end.

Definition start : World := {| ui := initial; inflight := [] |}.

(** The states the component can be in. *)
Inductive reachable : World → Prop :=
| reachable_start : reachable start
| reachable_step w ev : reachable w → reachable (step w ev).

End Chat.

(** ** The document list ([DocumentList]) *)

(** [tags.includes(tag)] *)
Definition array_includes (l : list str) (x : str) : bool := bool_decide (x ∈ l).

(** [String.prototype.toLowerCase] restricted to the letters [A]-[Z]; the
    development is otherwise parametric in the case mapping. *)
Definition asciiLowerCase (s : str) : str :=
  (λ c, if (65 <=? c) && (c <=? 90) then c + 32 else c)%N <$> s.

Module Docs.

Section WithCaseMapping.

(** [String.prototype.toLowerCase] *)
Variable toLowerCase : str → str.

(** The two predicates of [filterDocuments]. *)
Definition matchesQuery (lowercaseQuery : str) (doc : DocumentInfo) : bool :=
  includes (toLowerCase (filename doc)) lowercaseQuery ||
  existsb (λ t, includes (toLowerCase t) lowercaseQuery) (tags doc).

Definition hasTag (tag : str) (doc : DocumentInfo) : bool :=
  array_includes (tags doc) tag.

(** The list [filterDocuments(query, tag)] computes from the [documents] it
    sees, and hands to [setFilteredDocuments]. *)
Definition filterDocuments (documents : list DocumentInfo) (query tag : str)
  : list DocumentInfo :=
  let filtered := documents in
  let filtered :=
    if truthy query then
      let lowercaseQuery := toLowerCase query in
      List.filter (matchesQuery lowercaseQuery) filtered
    else filtered in
  let filtered :=
    if truthy tag then List.filter (hasTag tag) filtered else filtered in
  filtered.

(** The state of the component: one field per [useState]. *)
Record State := {
  documents : list DocumentInfo;
  filteredDocuments : list DocumentInfo;
  loading : bool;
  error : option str;
  searchQuery : str;
  selectedTag : str;
  deleteConfirm : option str
}.

Definition initial : State :=
  {| documents := []; filteredDocuments := []; loading := true; error := None;
     searchQuery := []; selectedTag := []; deleteConfirm := None |}.

(** A debounced call waiting for its 300 ms: [debouncedSearch(searchQuery)]
    as called by the effect of one render.  [debounce] is called anew by
    every render, so the call belongs to a timer of its own, and
    [filterDocuments] will read the [documents] and the [selectedTag] of
    that render. *)
Record Closure := {
  seen_documents : list DocumentInfo;
  seen_selectedTag : str;
  arg_query : str
}.

Record World := {
  ui : State;
  timers : list Closure;      (* oldest first: the delays are equal *)
  loads : nat;                (* calls of [api.listDocuments] in flight *)
  deletes : list str          (* calls of [api.deleteDocument] in flight *)
}.

(** The effect on [[searchQuery, selectedTag, documents]], run after a
    render in which one of them changed. *)
Definition effect (st : State) (w : World) : World :=
  {| ui := st;
     timers := timers w ++
       [{| seen_documents := documents st;
           seen_selectedTag := selectedTag st;
           arg_query := searchQuery st |}];
     loads := loads w; deletes := deletes w |}.

Definition no_effect (st : State) (w : World) : World :=
  {| ui := st; timers := timers w; loads := loads w; deletes := deletes w |}.

(** The search box, the tag selector, the cards and the confirmation
    dialogue are rendered only when the component is neither loading nor
    showing an error. *)
Definition interactive (st : State) : bool :=
  negb (loading st) && bool_decide (error st = None).

(** [getAllTags()], before sorting *)
Definition getAllTags (st : State) : list str :=
  concat (tags <$> documents st).

Inductive Event :=
| Refresh                       (* [loadDocuments()] is called *)
| LoadSettled (r : thrown + list DocumentInfo)
| TypeQuery (q : str)           (* [setSearchQuery] *)
| SelectTag (t : str)           (* [setSelectedTag] *)
| AskDelete (d : str)           (* the bin of a listed document *)
| CancelDelete
| ConfirmDelete                 (* [handleDelete(deleteConfirm)] is called *)
| DeleteSettled (i : nat) (r : thrown + unit)
| TimerFires.                   (* the oldest debounced call runs *)

Definition step (w : World) (ev : Event) : World :=
  let st := ui w in
  match ev with
  | Refresh =>
      {| ui := {| documents := documents st;
                  filteredDocuments := filteredDocuments st;
                  loading := true; error := None;
                  searchQuery := searchQuery st;
                  selectedTag := selectedTag st;
                  deleteConfirm := deleteConfirm st |};
         timers := timers w; loads := S (loads w); deletes := deletes w |}
  | LoadSettled r =>
      match loads w with
      | 0 => w
      | S n =>
          let w' := {| ui := st; timers := timers w; loads := n;
                       deletes := deletes w |} in
          match r with
          | inr items =>
              effect {| documents := items; filteredDocuments := items;
                        loading := false; error := error st;
                        searchQuery := searchQuery st;
                        selectedTag := selectedTag st;
                        deleteConfirm := deleteConfirm st |} w'
          | inl err =>
              no_effect {| documents := documents st;
                           filteredDocuments := filteredDocuments st;
                           loading := false;
                           error := Some (api_message (handleApiError err));
                           searchQuery := searchQuery st;
                           selectedTag := selectedTag st;
                           deleteConfirm := deleteConfirm st |} w'
          end
      end
  | TypeQuery q =>
      let st' := {| documents := documents st;
                    filteredDocuments := filteredDocuments st;
                    loading := loading st; error := error st;
                    searchQuery := q; selectedTag := selectedTag st;
                    deleteConfirm := deleteConfirm st |} in
      if negb (interactive st) || bool_decide (q = searchQuery st) then w
      else effect st' w
  | SelectTag t =>
      let st' := {| documents := documents st;
                    filteredDocuments := filteredDocuments st;
                    loading := loading st; error := error st;
                    searchQuery := searchQuery st; selectedTag := t;
                    deleteConfirm := deleteConfirm st |} in
      if negb (interactive st) || bool_decide (t = selectedTag st)
         || negb (bool_decide (t = [] ∨ t ∈ getAllTags st)) then w
      else effect st' w
  | AskDelete d =>
      if interactive st && bool_decide (d ∈ doc_id <$> filteredDocuments st)
      then
        no_effect {| documents := documents st;
                     filteredDocuments := filteredDocuments st;
                     loading := loading st; error := error st;
                     searchQuery := searchQuery st;
                     selectedTag := selectedTag st;
                     deleteConfirm := Some d |} w
      else w
  | CancelDelete =>
      if interactive st then
        no_effect {| documents := documents st;
                     filteredDocuments := filteredDocuments st;
                     loading := loading st; error := error st;
                     searchQuery := searchQuery st;
                     selectedTag := selectedTag st;
                     deleteConfirm := None |} w
      else w
  | ConfirmDelete =>
      match deleteConfirm st with
      | Some d =>
          if interactive st && truthy d then
            {| ui := st; timers := timers w; loads := loads w;
               deletes := deletes w ++ [d] |}
          else w
      | None => w
      end
  | DeleteSettled i r =>
      match deletes w !! i with
      | None => w
      | Some docId =>
          let w' := {| ui := st; timers := timers w; loads := loads w;
                       deletes := delete i (deletes w) |} in
          match r with
          | inr _ =>
              let keep := λ doc, negb (bool_decide (doc_id doc = docId)) in
              effect {| documents := List.filter keep (documents st);
                        filteredDocuments :=
                          List.filter keep (filteredDocuments st);
                        loading := loading st; error := error st;
                        searchQuery := searchQuery st;
                        selectedTag := selectedTag st;
                        deleteConfirm := None |} w'
          | inl err =>
              no_effect {| documents := documents st;
                           filteredDocuments := filteredDocuments st;
                           loading := loading st;
                           error := Some (api_message (handleApiError err));
                           searchQuery := searchQuery st;
                           selectedTag := selectedTag st;
                           deleteConfirm := deleteConfirm st |} w'
          end
      end
  | TimerFires =>
      match timers w with
      | [] => w
      | c :: pending =>
          {| ui := {| documents := documents st;
                      filteredDocuments :=
                        filterDocuments (seen_documents c) (arg_query c)
                                        (seen_selectedTag c);
                      loading := loading st; error := error st;
                      searchQuery := searchQuery st;
                      selectedTag := selectedTag st;
                      deleteConfirm := deleteConfirm st |};
             timers := pending; loads := loads w; deletes := deletes w |}
      end
  end.

(** The component once mounted: both effects have run, so that a load is
    in flight and a first debounced call waits. *)
Definition start : World :=
  effect initial {| ui := initial; timers := []; loads := 1; deletes := [] |}.

Definition run (evs : list Event) : World := foldl step start evs.

Inductive reachable : World → Prop :=
| reachable_start : reachable start
| reachable_step w ev : reachable w → reachable (step w ev).

End WithCaseMapping.

End Docs.

(** ** The upload form ([DocumentUpload]) *)

(** The tags [handleUpload] passes to [api.uploadDocument]. *)
Definition parseTags (tags : str) : list str :=
  List.filter (λ tag, 0 <? length tag) (trim <$> split_on COMMA tags).

(** The [tags] field of the form data [api.uploadDocument] posts, if any. *)
Definition tagsField (tags : list str) : option str :=
  if 0 <? length tags then Some (join [COMMA] tags) else None.

(** ** The streamed answer ([streamChat] in [lib/api.ts]) *)

Module Stream.

(** The values [JSON.parse] returns. *)
#[local] Unset Elimination Schemes.
Inductive json :=
| JNull
| JBool (b : bool)
| JNumber (n : number)
| JString (s : str)
| JArray (items : list json)
| JObject (fields : list (str * json)).
#[local] Set Elimination Schemes.

(** The value of a property of an object, [undefined] being [None]. *)
Fixpoint get_field (fields : list (str * json)) (name : str) : option json :=
  match fields with
  | [] => None
  | (k, v) :: fields' =>
      if bool_decide (k = name) then Some v else get_field fields' name
  end.

(** [parsed.token]: a [TypeError] on [null]; [undefined] on what has no such
    property. *)
Definition get_token (parsed : json) : option (option json) :=
  match parsed with
  | JNull => None
  | JObject fields => Some (get_field fields (js "token"))
  | _ => Some None
  end.

(** [if (v)] *)
Definition truthy_value (v : option json) : bool :=
  match v with
  | None => false
  | Some JNull => false
  | Some (JBool b) => b
  | Some (JNumber n) => negb (Qeq_bool n 0)
  | Some (JString s) => truthy s
  | Some (JArray _) => true
  | Some (JObject _) => true
  end.

Definition LF : char := 10%N.

(** What the generator has done so far. *)
Record Output := {
  tokens : list json;       (* the values yielded, in order *)
  warnings : list str       (* the payloads given to [console.warn] *)
}.

Definition nothing : Output := {| tokens := []; warnings := [] |}.

Definition yield (v : json) (out : Output) : Output :=
  {| tokens := tokens out ++ [v]; warnings := warnings out |}.

Definition warn (data : str) (out : Output) : Output :=
  {| tokens := tokens out; warnings := warnings out ++ [data] |}.

(** How the generator ends: it returns, or throws a normalised error. *)
Inductive completion :=
| Returns
| Throws (e : ApiError).

Section WithParser.

(** [JSON.parse], [None] standing for a [SyntaxError]. *)
Variable JSON_parse : str → option json.

(** The body of [for (const line of lines)]: [true] when the generator
    returns. *)
Definition on_line (line : str) (out : Output) : Output * bool :=
  if startsWith line (js "data: ") then
    let data := drop 6 line in
    if bool_decide (data = js "[DONE]") then (out, true)
    else
      match JSON_parse data with
      | Some parsed =>
          match get_token parsed with
          | Some token =>
              if truthy_value token
              then (from_option (λ v, yield v out) out token, false)
              else (out, false)
          | None => (warn data out, false)
          end
      | None => (warn data out, false)
      end
  else (out, false).

Fixpoint for_lines (lines : list str) (out : Output) : Output * bool :=
  match lines with
  | [] => (out, false)
  | line :: lines' =>
      match on_line line out with
      | (out', true) => (out', true)
      | (out', false) => for_lines lines' out'
      end
  end.

(** The [while (true)] loop: [chunks] are the decoded values [reader.read()]
    is going to give, [ending] the error of the read that fails, if one
    does. *)
Fixpoint read_loop (chunks : list str) (ending : option thrown)
    (buffer : str) (out : Output) : Output * completion :=
  match chunks with
  | [] =>
      match ending with
      | None => (out, Returns)                       (* [done]: break *)
      | Some e => (out, Throws (handleApiError e))
      end
  | value :: chunks' =>
      let buffer := buffer ++ value in
      let lines := split_on LF buffer in
      let buffer := default [] (last lines) in       (* [lines.pop() || ''] *)
      let lines := removelast lines in
      match for_lines lines out with
      | (out', true) => (out', Returns)
      | (out', false) => read_loop chunks' ending buffer out'
      end
  end.

(** The generator, given the response to its [fetch]: an error thrown
    before a body is read, or the chunks of the body. *)
Definition streamChat (response : thrown + (list str * option thrown))
  : Output * completion :=
  match response with
  | inl e => (nothing, Throws (handleApiError e))
  | inr (chunks, ending) => read_loop chunks ending [] nothing
  end.

(** *** What the stream is specified to do, line by line *)

(** The payload of an event line. *)
Definition payload (line : str) : option str :=
  if startsWith line (js "data: ") then Some (drop 6 line) else None.

Definition is_done (line : str) : bool :=
  bool_decide (payload line = Some (js "[DONE]")).

(** The lines before the terminal event. *)
Fixpoint live (lines : list str) : list str :=
  match lines with
  | [] => []
  | line :: lines' => if is_done line then [] else line :: live lines'
  end.

(** The token of a line whose payload parses to an object with a [token]
    field. *)
Definition token_field (line : str) : option json :=
  data ← payload line;
  parsed ← JSON_parse data;
  match parsed with
  | JObject fields => get_field fields (js "token")
  | _ => None
  end.

(** The token a line yields: the one of its [token] field, when truthy. *)
Definition token_yielded (line : str) : option json :=
  v ← token_field line;
  if truthy_value (Some v) then Some v else None.

(** The payload a line is warned about: one that does not parse, or that
    parses to [null]. *)
Definition warned_payload (line : str) : option str :=
  data ← payload line;
  match JSON_parse data with
  | None | Some JNull => Some data
  | _ => None
  end.

(** What a line that is not the terminal event adds to the output. *)
Definition after_line (line : str) (out : Output) : Output :=
  {| tokens := tokens out ++ option_list (token_yielded line);
     warnings := warnings out ++ option_list (warned_payload line) |}.

(** The complete lines of a stream: all pieces but the last. *)
Definition complete_lines (body : str) : list str :=
  removelast (split_on LF body).

End WithParser.

End Stream.

Definition QUOTE : char := 34%N.

(** A string in double quotes. *)
Definition quoted (s : str) : str := [QUOTE] ++ s ++ [QUOTE].

(** A stand-in for [JSON.parse] that knows the objects with a single
    [token] field holding a string without escapes, as the backend sends
    them, and takes everything else for a syntax error. *)
Definition parse_token_object (data : str) : option Stream.json :=
  let opening := js "{" ++ quoted (js "token") ++ js ":" ++ [QUOTE] in
  if startsWith data opening then
    let rest := drop (length opening) data in
    let text := take (length rest - 2) rest in
    if bool_decide (rest = text ++ [QUOTE] ++ js "}") &&
       negb (bool_decide (QUOTE ∈ text)) &&
       negb (bool_decide (ch "\" ∈ text))
    then Some (Stream.JObject [(js "token", Stream.JString text)])
    else None
  else None.

(** The event line [data: {"token":""}]. *)
Definition empty_token_line : str :=
  js "data: " ++ js "{" ++ quoted (js "token") ++ js ":" ++ quoted [] ++ js "}".

(** ** Sample data *)

Definition report_pdf : DocumentInfo :=
  {| doc_id := js "d1"; filename := js "report.pdf"; size := 1024%Q;
     mime_type := js "application/pdf";
     uploaded_at := js "2024-01-01T00:00:00Z"; chunks := 3%Q;
     tags := [js "q3"] |}.

Definition notes_md : DocumentInfo :=
  {| doc_id := js "d2"; filename := js "notes.md"; size := 200%Q;
     mime_type := js "text/markdown";
     uploaded_at := js "2024-01-02T00:00:00Z"; chunks := 1%Q;
     tags := [js "draft"] |}.

(** A deletion that settles between a refresh of the list and the
    debounced call that the refresh scheduled. *)
Definition stale_trace : list Docs.Event :=
  [ Docs.LoadSettled (inr [report_pdf; notes_md]);
    Docs.TimerFires; Docs.TimerFires;
    Docs.AskDelete (js "d1"); Docs.ConfirmDelete;
    Docs.Refresh;
    Docs.LoadSettled (inr [report_pdf; notes_md]);
    Docs.DeleteSettled 0 (inr tt);
    Docs.TimerFires ].

(** The answer of the specification's example, with its source. *)
Definition manual_response : ChatResponse :=
  {| answer := js "See [manual.pdf#3] for details.";
     sources := [ {| src_doc_id := js "d1"; src_filename := js "manual.pdf";
                     chunk_index := 3%Q; snippet := js "...";
                     score := (92 # 100)%Q |} ];
     usage := None; follow_up := None |}.

(** A transcript with a question typed in. *)
Definition asking : Chat.State :=
  {| Chat.messages := []; Chat.input := js " Where is it described? ";
     Chat.isLoading := false; Chat.ragOnly := true;
     Chat.sourcesTable := ∅ |}.

(** A backend that answers, and one that cannot be reached. *)
Definition answering (_ : ChatRequest) : thrown + ChatResponse :=
  inr manual_response.

Definition unreachable (_ : ChatRequest) : thrown + ChatResponse :=
  inl (AxiosError (js "Network Error") None).

(** The component while the question is on its way. *)
Definition waiting : Chat.World :=
  Chat.step (Chat.step Chat.start (Chat.Type_ (js "Where is it described?")))
            Chat.Submit.

(** The component with blanks typed in. *)
Definition blanks : Chat.World :=
  Chat.step Chat.start (Chat.Type_ [32%N; 9%N; 10%N]).

From stdpp Require sorting.
From Stdlib Require DecimalNat.

(** ** More of [lib/utils.ts] *)

Definition DOT : char := ch ".".
Definition AT : char := ch "@".

(** [s.slice(0, end)] for an integer [end]: a negative [end] counts from
    the end of [s]. *)
Definition slice_to (s : str) (end_ : Z) : str :=
  let len := Z.of_nat (length s) in
  let final := if (end_ <? 0)%Z then Z.max (len + end_) 0
               else Z.min end_ len in
  take (Z.to_nat final) s.

Definition truncateText (text : str) (maxLength : Z) : str :=
  if (Z.of_nat (length text) <=? maxLength)%Z then text
  else slice_to text maxLength ++ js "...".

(** [filename.split('.').pop()?.toLowerCase() || ''], for a case mapping
    [toLowerCase]. *)
Definition getFileExtension (toLowerCase : str → str) (filename : str) : str :=
  or_else (toLowerCase <$> last (split_on DOT filename)) [].

(** *** [highlightCitations] *)

(** [GetSubstitution] for the patterns [$$] and [$&] of a replacement
    template; the template of [highlightCitations] has no other. *)
Fixpoint expand (template matched : str) : str :=
  match template with
  | [] => []
  | c :: template' =>
      if (c =? 36)%N then
        match template' with
        | d :: template'' =>
            if (d =? 36)%N then 36%N :: expand template'' matched
            else if (d =? 38)%N then matched ++ expand template'' matched
            else c :: expand template' matched
        | [] => [c]
        end
      else c :: expand template' matched
  end.

(** [s.replace(r, template)] for a global [r]: every match, found as
    [exec] finds them, gives way to the expanded template; after an empty
    match the search moves on by one code unit. *)
Fixpoint replace_loop (fuel : nat) (r : regex) (template : str) (s : str) : str :=
  match fuel with
  | 0 => s
  | S fuel' =>
      match exec_from r [] s with
      | Some (skipped, match0, _, rest) =>
          skipped ++ expand template match0 ++
          match match0, rest with
          | [], c :: rest' => c :: replace_loop fuel' r template rest'
          | _, _ => replace_loop fuel' r template rest
          end
      | None => s
      end
  end.

Definition replace_all (r : regex) (template : str) (s : str) : str :=
  replace_loop (S (length s)) r template s.

(** ['<span class="citation-highlight">$&</span>'] *)
Definition highlightTemplate : str :=
  js "<span class=" ++ quoted (js "citation-highlight") ++ js ">$&</span>".

Definition highlightCitations (text : str) : str :=
  replace_all citationRegex highlightTemplate text.

(** What comes before and after a highlighted citation. *)
Definition openTag : str :=
  js "<span class=" ++ quoted (js "citation-highlight") ++ js ">".

Definition closeTag : str := js "</span>".

(** The text [highlightCitations] is to return for a scanned text. *)
Fixpoint highlighted (t0 : str) (ms : list (str * str * str)) : str :=
  t0 ++
  match ms with
  | [] => []
  | (fn, ds, t1) :: ms' =>
      openTag ++ marker_text fn ds ++ closeTag ++ highlighted t1 ms'
  end.

(** *** [isValidEmail] *)

(** Patterns anchored at both ends, made of single characters and of
    greedy [+] over a class: enough for [/^[^\s@]+@[^\s@]+\.[^\s@]+$/]. *)
Module Anchored.

Inductive term :=
| One (p : char → bool)
| Many (p : char → bool).

(** [r.test(s)] for [^r$]: the pattern can only match from the start, and
    has to reach the end. *)
Fixpoint test (r : list term) (s : str) : bool :=
  match r with
  | [] => match s with [] => true | _ => false end
  | One p :: r' =>
      match s with
      | c :: s' => p c && test r' s'
      | [] => false
      end
  | Many p :: r' =>
      (fix many (s : str) : bool :=
         match s with
         | c :: s' => p c && (many s' || test r' s')
         | [] => false
         end) s
  end.

Fixpoint many (p : char → bool) (r' : list term) (s : str) : bool :=
  match s with
  | c :: s' => p c && (many p r' s' || test r' s')
  | [] => false
  end.

End Anchored.

(** [[^\s@]] *)
Definition email_char (c : char) : bool :=
  negb (isWhiteSpace c) && negb (c =? AT)%N.

Definition emailRegex : list Anchored.term :=
  [ Anchored.Many email_char;
    Anchored.One (λ c, (c =? AT)%N);
    Anchored.Many email_char;
    Anchored.One (λ c, (c =? DOT)%N);
    Anchored.Many email_char ].

Definition isValidEmail (email : str) : bool := Anchored.test emailRegex email.

(** ** The tag selector of the document list *)

(** The order of [Array.prototype.sort] without a comparator, on strings:
    code unit by code unit, a prefix first. *)
Fixpoint str_leb (a b : str) : bool :=
  match a, b with
  | [], _ => true
  | _ :: _, [] => false
  | x :: a', y :: b' => (x <? y)%N || ((x =? y)%N && str_leb a' b')
  end.

Definition str_le (a b : str) : Prop := str_leb a b = true.

Global Instance str_le_dec a b : Decision (str_le a b).
Proof. unfold str_le. apply _. Defined.

(** [getAllTags()]: the tags of all documents, each once (a [Set]), and
    sorted. *)
Definition getAllTags_sorted (st : Docs.State) : list str :=
  sorting.merge_sort str_le (remove_dups (Docs.getAllTags st)).

(** ** The theme ([lib/theme.tsx], [toggleTheme] in [Layout.tsx]) *)

Module Theme.

Definition LIGHT : str := js "light".
Definition DARK : str := js "dark".
Definition SYSTEM : str := js "system".

(** What the theme code reads and writes of the browser. *)
Record Browser := {
  localStorage : gmap str str;
  prefersDark : bool;          (* [(prefers-color-scheme: dark)] matches *)
  classList : gset str         (* of the root element *)
}.

(** The initial state of [ThemeProvider]:
    [localStorage.getItem(storageKey) || defaultTheme]. *)
Definition initialTheme (storageKey defaultTheme : str) (b : Browser) : str :=
  or_else (localStorage b !! storageKey) defaultTheme.

(** The effect on [[theme]]. *)
Definition applyTheme (theme : str) (b : Browser) : Browser :=
  let classes := classList b ∖ {[ LIGHT; DARK ]} in
  {| localStorage := localStorage b;
     prefersDark := prefersDark b;
     classList :=
       if bool_decide (theme = SYSTEM) then
         let systemTheme := if prefersDark b then DARK else LIGHT in
         {[ systemTheme ]} ∪ classes
       else {[ theme ]} ∪ classes |}.

(** [setTheme] of the provider, with the effect of the render that
    follows. *)
Definition setTheme (storageKey theme : str) (b : Browser) : Browser :=
  applyTheme theme
    {| localStorage := <[storageKey := theme]> (localStorage b);
       prefersDark := prefersDark b;
       classList := classList b |}.

(** The theme [toggleTheme] asks for. *)
Definition toggled (theme : str) : str :=
  if bool_decide (theme = DARK) then LIGHT else DARK.

End Theme.

(** ** [debounce] and [throttle] ([lib/utils.ts]) *)

Module Timers.

Section WithArguments.

Context {Args : Type}.

(** What happens to a debounced or throttled function: it is called, or
    the delay of its timer elapses. *)
Inductive event :=
| Call (args : Args)
| Elapse.

(** A function made by [debounce]: the call its timer is to make, and the
    calls of [func] made so far. *)
Record debounced := {
  scheduled : option Args;
  made : list Args
}.

Definition debounce : debounced := {| scheduled := None; made := [] |}.

(** A call clears the timer and sets a new one; the timer, when its delay
    elapses, calls [func]. *)
Definition debounced_step (d : debounced) (ev : event) : debounced :=
  match ev with
  | Call args => {| scheduled := Some args; made := made d |}
  | Elapse =>
      match scheduled d with
      | Some args => {| scheduled := None; made := made d ++ [args] |}
      | None => d
      end
  end.

(** A function made by [throttle]. *)
Record throttled := {
  inThrottle : bool;
  passed : list Args
}.

Definition throttle : throttled := {| inThrottle := false; passed := [] |}.

(** A call goes through unless [inThrottle] is set, and sets it; the
    timer resets it. *)
Definition throttled_step (t : throttled) (ev : event) : throttled :=
  match ev with
  | Call args =>
      if inThrottle t then t
      else {| inThrottle := true; passed := passed t ++ [args] |}
  | Elapse => {| inThrottle := false; passed := passed t |}
  end.

(** The calls that are followed by no other call before the delay
    elapses. *)
Fixpoint settled_calls (evs : list event) : list Args :=
  match evs with
  | Call args :: (Elapse :: _) as rest => args :: settled_calls rest
  | _ :: rest => settled_calls rest
  | [] => []
  end.

Definition elapses (evs : list event) : nat :=
  length (List.filter (λ ev, match ev with Elapse => true | _ => false end) evs).

Definition calls (evs : list event) : list Args :=
  omap (λ ev, match ev with Call args => Some args | Elapse => None end) evs.

End WithArguments.

Arguments event : clear implicits.
Arguments debounced : clear implicits.
Arguments throttled : clear implicits.

End Timers.

(** ** Invariants of the chat *)

(** Every entry of the table holds sources, under the key of a message of
    the assistant in [msgs]. *)
Definition entries_valid (table : gmap str (list SourceCitation))
    (msgs : list ChatMessage) : Prop :=
  ∀ key l, table !! key = Some l →
    l ≠ [] ∧
    ∃ k m, key = Chat.messageId k ∧ msgs !! k = Some m ∧ role m = assistant.

(** A request as [handleSubmit] posts them: not streamed, with the
    transcript held by the suspended call, which ends with a message of the
    user that is neither empty nor surrounded by white space. *)
Definition well_posed (p : Chat.Pending) : Prop :=
  req_stream (Chat.posted p) = false ∧
  req_messages (Chat.posted p) = Chat.held_messages p ∧
  ∃ earlier text,
    Chat.held_messages p = earlier ++ [{| role := user; content := text |}] ∧
    text ≠ [] ∧ trim text = text.

(** ** The document list at rest *)

(** The debounced call scheduled last holds the documents, the tag and
    the query as they are. *)
Definition last_is_current (w : Docs.World) : Prop :=
  ∀ c, last (Docs.timers w) = Some c →
       Docs.seen_documents c = Docs.documents (Docs.ui w) ∧
       Docs.seen_selectedTag c = Docs.selectedTag (Docs.ui w) ∧
       Docs.arg_query c = Docs.searchQuery (Docs.ui w).

(** With no debounced call waiting, the list shown is the filter of the
    documents as they are. *)
Definition filtered_is_current (toLowerCase : str → str) (w : Docs.World)
  : Prop :=
  Docs.timers w = [] →
  Docs.filteredDocuments (Docs.ui w) =
  Docs.filterDocuments toLowerCase (Docs.documents (Docs.ui w))
    (Docs.searchQuery (Docs.ui w)) (Docs.selectedTag (Docs.ui w)).

(** ** More sample data *)

(** The event line [data: {"token":"lost"}]. *)
Definition lost_token_line : str :=
  js "data: {" ++ quoted (js "token") ++ js ":" ++ quoted (js "lost") ++ js "}".


(** The component once the question has been answered. *)
Definition answered : Chat.World :=
  Chat.step waiting (Chat.Settle 0 (inr manual_response)).

(** The document list once loaded and at rest. *)
Definition at_rest : list Docs.Event :=
  [ Docs.LoadSettled (inr [report_pdf; notes_md]);
    Docs.TimerFires; Docs.TimerFires ].

(** A citation written after an opening bracket that nothing closes. *)
Definition bracketed_text : str := js "see [1, 2 and [manual.pdf#3]".

(** The question typed in, sent, cleared away while on its way, and then
    failing. *)
Definition typed_in : Chat.World :=
  Chat.step Chat.start (Chat.Type_ (js "Where is it described?")).

Definition cleared_then_failed : Chat.World :=
  Chat.step
    (Chat.step (Chat.step typed_in Chat.Submit) Chat.Clear)
    (Chat.Settle 0 (inl (AxiosError (js "Network Error") None))).

(** * Properties *)

(** ** The matcher and the declarative markers agree *)

Section MatcherFacts.

Implicit Types (s t rest : str) (cs : charset) (r : regex).

Lemma run_group cs r' s :
  run (GroupPlus cs :: r') s =
  match plus_loop cs r' s with
  | Some (cap, (caps, rest)) => Some (cap :: caps, rest)
  | None => None
  end.
Proof.
  cbn [run].
  match goal with |- match ?f s with _ => _ end = _ =>
    assert (H : ∀ t, f t = plus_loop cs r' t) end.
  { induction t as [|c t IH]; [done|].
    cbn [plus_loop]. rewrite <- IH. done. }
  by rewrite H.
Qed.

Lemma run_atom cs r' c s :
  run (Atom cs :: r') (c :: s) = if charset_mem cs c then run r' s else None.
Proof. reflexivity. Qed.

Lemma plus_loop_sound cs r s cap res :
  plus_loop cs r s = Some (cap, res) →
  ∃ mid, s = cap ++ mid ∧ cap ≠ [] ∧
         Forall (λ c, charset_mem cs c = true) cap ∧ run r mid = Some res.
Proof.
  revert cap res. induction s as [|c s IH]; intros cap res; [done|].
  cbn [plus_loop]. destruct (charset_mem cs c) eqn:Hc; [|done].
  destruct (plus_loop cs r s) as [[cap' res']|] eqn:Hp.
  - intros [= <- <-]. destruct (IH _ _ eq_refl) as (mid & -> & _ & Hall & Hrun).
    exists mid. split_and!; [done|done| |done]. by constructor.
  - destruct (run r s) as [res'|] eqn:Hr; [|done].
    intros [= <- <-]. exists s. split_and!; [done|done| |done].
    by repeat constructor.
Qed.

Lemma plus_loop_complete cs r cap mid :
  cap ≠ [] → Forall (λ c, charset_mem cs c = true) cap →
  is_Some (run r mid) → is_Some (plus_loop cs r (cap ++ mid)).
Proof.
  intros Hne Hall Hrun. induction Hall as [|c cap Hc Hall IH]; [done|].
  cbn [app plus_loop]. rewrite Hc.
  destruct cap as [|c' cap].
  - cbn [app]. destruct (plus_loop cs r mid) as [[??]|]; [done|].
    destruct Hrun as [res ->]. done.
  - destruct IH as [[cap' res'] ->]; done.
Qed.

Lemma char_eqb_eq (c x : char) : (c =? x)%N = true ↔ c = x.
Proof. apply N.eqb_eq. Qed.

Lemma not_rbracket_mem (l : str) :
  Forall (λ c, charset_mem (CsNotChar RBRACKET) c = true) l ↔ RBRACKET ∉ l.
Proof.
  rewrite Forall_forall. split.
  - intros H Hin. specialize (H _ Hin). cbn in H.
    by rewrite N.eqb_refl in H.
  - intros H c Hin. cbn. apply negb_true_iff, N.eqb_neq. by intros ->.
Qed.

Lemma digit_not_rbracket c : is_digit c = true → c ≠ RBRACKET.
Proof. intros H ->. done. Qed.

Lemma digit_not_hash c : is_digit c = true → c ≠ HASH.
Proof. intros H ->. done. Qed.

Lemma digits_no (x : char) (ds : str) :
  (∀ c, is_digit c = true → c ≠ x) →
  Forall (λ c, is_digit c = true) ds → x ∉ ds.
Proof.
  intros Hx Hall Hin. rewrite Forall_forall in Hall.
  by apply (Hx x (Hall _ Hin)).
Qed.

Lemma marker_text_app fn ds rest :
  marker_text fn ds ++ rest = LBRACKET :: fn ++ HASH :: ds ++ RBRACKET :: rest.
Proof. unfold marker_text. by rewrite <- !app_assoc. Qed.

(** What the matcher accepts is a well-formed marker. *)
Lemma run_citation_sound s caps rest :
  run citationRegex s = Some (caps, rest) →
  ∃ fn ds, caps = [fn; ds] ∧ well_formed fn ds ∧ s = marker_text fn ds ++ rest.
Proof.
  unfold citationRegex. destruct s as [|c s]; [done|].
  rewrite run_atom.
  destruct (charset_mem (CsChar LBRACKET) c) eqn:Hc; [|done].
  apply char_eqb_eq in Hc as ->.
  rewrite run_group.
  destruct (plus_loop _ _ s) as [[fn [caps' rest']]|] eqn:Hp; [|done].
  intros [= <- <-].
  apply plus_loop_sound in Hp as (mid & -> & Hfn & Hall & Hrun).
  destruct mid as [|c mid]; [done|]. rewrite run_atom in Hrun.
  destruct (charset_mem (CsChar HASH) c) eqn:Hc; [|done].
  apply char_eqb_eq in Hc as ->.
  rewrite run_group in Hrun.
  destruct (plus_loop _ _ mid) as [[ds [caps'' rest'']]|] eqn:Hd; [|done].
  injection Hrun as <- <-.
  apply plus_loop_sound in Hd as (mid' & -> & Hds & Hall' & Hrun').
  destruct mid' as [|c mid']; [done|]. rewrite run_atom in Hrun'.
  destruct (charset_mem (CsChar RBRACKET) c) eqn:Hc; [|done].
  apply char_eqb_eq in Hc as ->. injection Hrun' as <- <-.
  exists fn, ds. split; [done|]. split.
  - split_and!; [done| |done|done]. by apply not_rbracket_mem.
  - by rewrite marker_text_app.
Qed.

(** The matcher accepts every well-formed marker. *)
Lemma run_citation_complete fn ds rest :
  well_formed fn ds → is_Some (run citationRegex (marker_text fn ds ++ rest)).
Proof.
  intros (Hfn & Hno & Hds & Hdig).
  rewrite marker_text_app. unfold citationRegex.
  rewrite run_atom. cbn [charset_mem].
  rewrite N.eqb_refl, run_group.
  destruct (plus_loop_complete (CsNotChar RBRACKET)
              [Atom (CsChar HASH); GroupPlus CsDigit; Atom (CsChar RBRACKET)]
              fn (HASH :: ds ++ RBRACKET :: rest)) as [[cap [caps r]] ->];
    [done|by apply not_rbracket_mem| |done].
  rewrite run_atom. cbn [charset_mem].
  rewrite N.eqb_refl, run_group.
  destruct (plus_loop_complete CsDigit [Atom (CsChar RBRACKET)]
              ds (RBRACKET :: rest)) as [[cap [caps r]] ->]; [done|done| |done].
  rewrite run_atom. cbn [charset_mem]. by rewrite N.eqb_refl.
Qed.

(** Splitting at the first occurrence of a character is unambiguous. *)
Lemma app_cons_first_unique (x : char) (l1 l2 k1 k2 : str) :
  x ∉ l1 → x ∉ k1 → l1 ++ x :: l2 = k1 ++ x :: k2 → l1 = k1 ∧ l2 = k2.
Proof.
  revert k1. induction l1 as [|a l1 IH]; intros [|b k1] H1 H2 Heq.
  - by injection Heq as ->.
  - injection Heq as -> _. exfalso. apply H2. by left.
  - injection Heq as -> _. exfalso. apply H1. by left.
  - injection Heq as -> Heq.
    destruct (IH k1) as [-> ->]; [| |done|done].
    + intros ?. apply H1. by right.
    + intros ?. apply H2. by right.
Qed.

(** So is splitting at the last occurrence. *)
Lemma app_cons_last_unique (x : char) (l1 l2 k1 k2 : str) :
  x ∉ l2 → x ∉ k2 → l1 ++ x :: l2 = k1 ++ x :: k2 → l1 = k1 ∧ l2 = k2.
Proof.
  intros H1 H2 Heq. apply (f_equal reverse) in Heq.
  rewrite !reverse_app, !reverse_cons, <- !app_assoc in Heq. cbn in Heq.
  apply app_cons_first_unique in Heq as [Hl2 Hl1].
  - split; by apply (inj reverse).
  - by rewrite elem_of_reverse.
  - by rewrite elem_of_reverse.
Qed.

(** A text begins with at most one well-formed marker. *)
Lemma marker_unique fn ds rest fn' ds' rest' :
  well_formed fn ds → well_formed fn' ds' →
  marker_text fn ds ++ rest = marker_text fn' ds' ++ rest' →
  fn = fn' ∧ ds = ds' ∧ rest = rest'.
Proof.
  intros (_ & Hno & _ & Hdig) (_ & Hno' & _ & Hdig') Heq.
  rewrite !marker_text_app in Heq. injection Heq as Heq.
  assert (Hd := digits_no RBRACKET ds digit_not_rbracket Hdig).
  assert (Hd' := digits_no RBRACKET ds' digit_not_rbracket Hdig').
  assert (Hh := digits_no HASH ds digit_not_hash Hdig).
  assert (Hh' := digits_no HASH ds' digit_not_hash Hdig').
  replace (fn ++ HASH :: ds ++ RBRACKET :: rest)
    with ((fn ++ HASH :: ds) ++ RBRACKET :: rest) in Heq
    by (by rewrite <- !app_assoc).
  replace (fn' ++ HASH :: ds' ++ RBRACKET :: rest')
    with ((fn' ++ HASH :: ds') ++ RBRACKET :: rest') in Heq
    by (by rewrite <- !app_assoc).
  apply app_cons_first_unique in Heq as [Heq ->].
  - apply app_cons_last_unique in Heq as [-> ->]; done.
  - rewrite elem_of_app, elem_of_cons. intros [?|[?|?]]; done.
  - rewrite elem_of_app, elem_of_cons. intros [?|[?|?]]; done.
Qed.

(** The matcher, characterised. *)
Lemma run_citation_marker fn ds rest :
  well_formed fn ds →
  run citationRegex (marker_text fn ds ++ rest) = Some ([fn; ds], rest).
Proof.
  intros Hwf. destruct (run_citation_complete fn ds rest Hwf) as [[caps r] Hrun].
  rewrite Hrun. apply run_citation_sound in Hrun as (fn' & ds' & -> & Hwf' & Heq).
  by apply marker_unique in Heq as (-> & -> & ->).
Qed.

Lemma marker_at_run s : marker_at s ↔ is_Some (run citationRegex s).
Proof.
  split.
  - intros (fn & ds & rest & Hwf & ->). by apply run_citation_complete.
  - intros [[caps rest] Hrun].
    apply run_citation_sound in Hrun as (fn & ds & _ & Hwf & ->).
    by exists fn, ds, rest.
Qed.

Lemma run_none_no_marker s : run citationRegex s = None ↔ ¬ marker_at s.
Proof. rewrite marker_at_run, <- eq_None_not_Some. done. Qed.

Lemma marker_text_length fn ds :
  length (marker_text fn ds) = length fn + length ds + 3.
Proof. unfold marker_text. rewrite !length_app. cbn. lia. Qed.

End MatcherFacts.

(** ** Scanning a text for markers *)

Section Scanning.

Implicit Types (s t acc rest text : str) (ms : list (str * str * str)).

Lemma marker_free_nil tail : marker_free [] tail.
Proof. intros i Hi. cbn in Hi. lia. Qed.

Lemma marker_free_snoc acc c s :
  marker_free acc (c :: s) → ¬ marker_at (c :: s) → marker_free (acc ++ [c]) s.
Proof.
  intros Hfree Hc i Hi. rewrite length_app in Hi. cbn in Hi.
  rewrite <- app_assoc. cbn [app].
  destruct (decide (i < length acc)) as [Hlt|Hge]; [by apply Hfree|].
  assert (i = length acc) as -> by lia.
  by rewrite drop_app_length.
Qed.

Lemma marker_free_tail c t tail : marker_free (c :: t) tail → marker_free t tail.
Proof. intros Hfree i Hi. apply (Hfree (S i)). cbn. lia. Qed.

Lemma marker_free_head c t tail :
  marker_free (c :: t) tail → run citationRegex (c :: t ++ tail) = None.
Proof. intros Hfree. apply run_none_no_marker, (Hfree 0). cbn. lia. Qed.

(** [split] finds the markers of the text. *)
Lemma split_loop_spec fuel acc s :
  length s < fuel → marker_free acc s →
  ∃ t0 ms, Segmented (acc ++ s) t0 ms ∧
           split_loop fuel citationRegex acc s = parts_of t0 ms.
Proof.
  revert acc s. induction fuel as [|fuel IH]; intros acc s Hfuel Hfree; [lia|].
  destruct s as [|c s].
  - exists acc, []. rewrite app_nil_r. split; [by constructor|done].
  - cbn [split_loop].
    destruct (run citationRegex (c :: s)) as [[caps rest]|] eqn:Hrun.
    + apply run_citation_sound in Hrun as (fn & ds & -> & Hwf & Heq).
      assert (length rest < length (c :: s)) as Hlen.
      { rewrite Heq, length_app, marker_text_length. lia. }
      rewrite bool_decide_eq_false_2 by lia.
      destruct (IH [] rest) as (t1 & ms & Hseg & ->);
        [cbn in *; lia|apply marker_free_nil|].
      exists acc, ((fn, ds, t1) :: ms). split; [|done].
      rewrite Heq. rewrite Heq in Hfree. by constructor.
    + destruct (IH (acc ++ [c]) s) as (t0 & ms & Hseg & ->).
      * cbn in Hfuel. lia.
      * apply marker_free_snoc; [done|]. by apply run_none_no_marker.
      * exists t0, ms. split; [|done]. by rewrite <- app_assoc in Hseg.
Qed.

Lemma split_citation_spec text :
  ∃ t0 ms, Segmented text t0 ms ∧ split citationRegex text = parts_of t0 ms.
Proof.
  destruct text as [|c text].
  - exists [], []. split; [constructor; apply marker_free_nil|done].
  - unfold split.
    apply (split_loop_spec _ [] (c :: text)); [lia|apply marker_free_nil].
Qed.

(** Every text has markers scanned from the left, in exactly one way. *)
Lemma Segmented_total text : ∃ t0 ms, Segmented text t0 ms.
Proof. destruct (split_citation_spec text) as (t0 & ms & H & _). eauto. Qed.

Lemma Segmented_prefix text t0 ms :
  Segmented text t0 ms → ∃ tail, text = t0 ++ tail ∧ marker_free t0 tail ∧
    (ms = [] → tail = []) ∧
    (∀ fn ds t1 ms', ms = (fn, ds, t1) :: ms' →
       ∃ rest, tail = marker_text fn ds ++ rest ∧ well_formed fn ds ∧
               Segmented rest t1 ms').
Proof.
  destruct 1 as [t Hfree|t fn ds rest t1 ms Hwf Hfree Hseg].
  - exists []. rewrite app_nil_r. by split_and!.
  - exists (marker_text fn ds ++ rest). split_and!; [done|done|done|].
    intros ???? [= <- <- <- <-]. by exists rest.
Qed.

Lemma marker_free_length t tail t' fn ds rest :
  marker_free t tail → well_formed fn ds →
  t ++ tail = t' ++ marker_text fn ds ++ rest → length t ≤ length t'.
Proof.
  intros Hfree Hwf Heq.
  destruct (decide (length t' < length t)) as [Hlt|]; [|lia].
  exfalso. apply (Hfree _ Hlt). rewrite Heq, drop_app_length.
  by exists fn, ds, rest.
Qed.

Lemma Segmented_unique text t0 ms t0' ms' :
  Segmented text t0 ms → Segmented text t0' ms' → t0 = t0' ∧ ms = ms'.
Proof.
  intros Hseg. revert t0' ms'.
  induction Hseg as [t Hfree|t fn ds rest t1 ms Hwf Hfree Hseg IH];
    intros t0' ms' Hseg'.
  - inversion Hseg' as [t' Hfree'|t' fn' ds' rest' t1' ms'' Hwf' Hfree' Hseg'' Heq];
      subst; [done|].
    exfalso.
    assert (length (t0' ++ marker_text fn' ds' ++ rest') ≤ length t0').
    { eapply (marker_free_length _ []); [exact Hfree|exact Hwf'|].
      by rewrite app_nil_r. }
    rewrite !length_app, marker_text_length in *. lia.
  - inversion Hseg' as [t' Hfree'|t' fn' ds' rest' t1' ms'' Hwf' Hfree' Hseg'' Heq];
      subst.
    + exfalso.
      assert (length (t ++ marker_text fn ds ++ rest) ≤ length t).
      { eapply (marker_free_length _ []); [exact Hfree'|exact Hwf|].
        by rewrite app_nil_r. }
      rewrite !length_app, marker_text_length in *. lia.
    + change (t0' ++ marker_text fn' ds' ++ rest' =
              t ++ marker_text fn ds ++ rest) in Heq.
      assert (length t0' ≤ length t)
        by (eapply marker_free_length; [exact Hfree'|exact Hwf|done]).
      assert (length t ≤ length t0')
        by (eapply marker_free_length; [exact Hfree|exact Hwf'|done]).
      symmetry in Heq. apply app_inj_1 in Heq as [-> Heq]; [|lia].
      apply marker_unique in Heq as (-> & -> & ->); [|done|done].
      destruct (IH _ _ Hseg'') as [-> ->]. done.
Qed.

(** A text in which no marker begins anywhere is one stretch of plain
    text. *)
Lemma Segmented_no_marker text t0 ms :
  (∀ i, ¬ marker_at (drop i text)) → Segmented text t0 ms →
  t0 = text ∧ ms = [].
Proof.
  intros Hno Hseg.
  apply (Segmented_unique text); [done|].
  constructor. intros i _. rewrite app_nil_r. apply Hno.
Qed.

End Scanning.

(** ** Rendering the scanned text *)

Section Rendering.

Implicit Types (s t rest text : str) (ms : list (str * str * str)).

Lemma mod3_offsets n :
  n mod 3 = 0 →
  (n + 0) mod 3 = 0 ∧ (n + 1) mod 3 = 1 ∧ (n + 2) mod 3 = 2 ∧
  (n + 3) mod 3 = 0.
Proof.
  intros H. split_and!; rewrite Nat.Div0.add_mod, H; done.
Qed.

Lemma render_parts_of ms pre t0 :
  length pre mod 3 = 0 →
  imap (λ i, render_part (pre ++ parts_of t0 ms) (length pre + i))
       (parts_of t0 ms)
  = elements_from (length pre) t0 ms.
Proof.
  revert pre t0. induction ms as [|[[fn ds] t1] ms IH]; intros pre t0 Hpre.
  - destruct (mod3_offsets _ Hpre) as (H0 & _).
    cbn. unfold render_part. rewrite H0. cbn. by rewrite Nat.add_0_r.
  - destruct (mod3_offsets _ Hpre) as (H0 & H1 & H2 & H3).
    cbn [parts_of elements_from]. rewrite !imap_cons. unfold compose.
    unfold render_part at 1 2 3. rewrite H0, H1, H2.
    cbn [Nat.eqb]. rewrite Nat.add_0_r. f_equal. f_equal.
    { f_equal. replace (length pre + 1 + 1) with (length pre + 2) by lia.
      rewrite lookup_app_r by lia.
      by replace (length pre + 2 - length pre) with 2 by lia. }
    f_equal.
    specialize (IH (pre ++ [t0; fn; ds]) t1).
    rewrite length_app in IH. cbn [length] in IH.
    rewrite <- IH by done.
    apply imap_ext. intros i x _. cbn.
    rewrite <- app_assoc. cbn [app]. f_equal. lia.
Qed.

(** The renderer produces the elements of the scanned text. *)
Lemma renderContent_Segmented text t0 ms :
  Segmented text t0 ms → renderContent text = elements_from 0 t0 ms.
Proof.
  intros Hseg. unfold renderContent.
  destruct (split_citation_spec text) as (t0' & ms' & Hseg' & ->).
  destruct (Segmented_unique _ _ _ _ _ Hseg Hseg') as [<- <-].
  apply (render_parts_of ms [] t0). done.
Qed.

Lemma citations_elements_from k t0 ms :
  citations (elements_from k t0 ms) = (λ m, (m.1.1, Some m.1.2)) <$> ms.
Proof.
  revert k t0. induction ms as [|[[fn ds] t1] ms IH]; intros k t0; [done|].
  cbn [elements_from]. unfold citations in *. cbn. by rewrite IH.
Qed.

Lemma displayed_elements_from k text t0 ms :
  Segmented text t0 ms → displayed (elements_from k t0 ms) = text.
Proof.
  intros Hseg. revert k.
  induction Hseg as [t Hfree|t fn ds rest t1 ms Hwf Hfree Hseg IH]; intros k.
  - unfold displayed. cbn. by rewrite app_nil_r.
  - unfold displayed in *. cbn [elements_from fmap list_fmap concat from_option
      textContent default]. rewrite IH. unfold marker_text.
    cbn. by rewrite <- !app_assoc.
Qed.

End Rendering.

(** ** [extractCitations] on the scanned text *)

Section Extracting.

Implicit Types (s t rest text : str) (ms : list (str * str * str)).

Lemma exec_from_unfold r skipped s :
  exec_from r skipped s =
  match run r s with
  | Some (caps, rest) =>
      Some (skipped, take (length s - length rest) s, caps, rest)
  | None =>
      match s with
      | c :: s' => exec_from r (skipped ++ [c]) s'
      | [] => None
      end
  end.
Proof. by destruct s. Qed.

(** [exec] returns the first marker after [lastIndex]. *)
Lemma exec_from_marker t fn ds rest skipped :
  well_formed fn ds → marker_free t (marker_text fn ds ++ rest) →
  exec_from citationRegex skipped (t ++ marker_text fn ds ++ rest) =
  Some (skipped ++ t, marker_text fn ds, [fn; ds], rest).
Proof.
  intros Hwf. revert skipped. induction t as [|c t IH]; intros skipped Hfree.
  - rewrite exec_from_unfold. cbn [app].
    rewrite run_citation_marker by done.
    rewrite length_app, app_nil_r.
    replace (length (marker_text fn ds) + length rest - length rest)
      with (length (marker_text fn ds)) by lia.
    by rewrite take_app_length.
  - rewrite exec_from_unfold. cbn [app].
    rewrite (marker_free_head _ _ _ Hfree).
    rewrite IH by (by eapply marker_free_tail).
    by rewrite <- app_assoc.
Qed.

(** [exec] returns [null] when no marker is left. *)
Lemma exec_from_none t skipped :
  marker_free t [] → exec_from citationRegex skipped t = None.
Proof.
  revert skipped. induction t as [|c t IH]; intros skipped Hfree; [done|].
  rewrite exec_from_unfold.
  assert (run citationRegex (c :: t) = None) as ->.
  { rewrite <- (app_nil_r t). by apply marker_free_head. }
  apply IH. by eapply marker_free_tail.
Qed.

Lemma extract_loop_Segmented fuel text t0 ms :
  Segmented text t0 ms → length text < fuel →
  extract_loop fuel text = (λ m, marker_text m.1.1 m.1.2) <$> ms.
Proof.
  intros Hseg. revert fuel.
  induction Hseg as [t Hfree|t fn ds rest t1 ms Hwf Hfree Hseg IH];
    intros [|fuel] Hfuel; try lia.
  - cbn [extract_loop]. by rewrite exec_from_none.
  - cbn [extract_loop]. rewrite exec_from_marker by done.
    rewrite IH; [done|].
    rewrite !length_app, marker_text_length in Hfuel. lia.
Qed.

Lemma extractCitations_Segmented text t0 ms :
  Segmented text t0 ms →
  extractCitations text = (λ m, marker_text m.1.1 m.1.2) <$> ms.
Proof. intros Hseg. eapply extract_loop_Segmented; [done|lia]. Qed.

End Extracting.

(** ** The citation renderer: specification *)

(** C1, as the code has it. For every text, the renderer produces one
    citation element for each match of the pattern [[filename#digits]]
    found scanning the text from the left, each match being the first one
    that begins after the previous one ends (so that a marker written
    after an opening bracket that no [']'] closes is part of a longer
    match, and of its file name); the elements come in the order of the
    matches and carry their file names and digits; the text between
    matches is kept verbatim and in order, so that the rendering displays
    the input text; and a text in which no marker begins is rendered as
    that text alone. *)
Theorem renderContent_spec (text : str) :
  ∃ t0 ms,
    (∀ t0' ms', Segmented text t0' ms' ↔ t0' = t0 ∧ ms' = ms) ∧
    renderContent text = elements_from 0 t0 ms ∧
    citations (renderContent text) = (λ m, (m.1.1, Some m.1.2)) <$> ms ∧
    length (citations (renderContent text)) = length ms ∧
    displayed (renderContent text) = text ∧
    ((∀ i, ¬ marker_at (drop i text)) →
       renderContent text = [Some (TextSpan 0 text)]).
Proof.
  destruct (Segmented_total text) as (t0 & ms & Hseg).
  exists t0, ms.
  rewrite (renderContent_Segmented _ _ _ Hseg), citations_elements_from.
  split_and!.
  - intros t0' ms'. split.
    + intros Hseg'. by apply (Segmented_unique text).
    + by intros [-> ->].
  - done.
  - done.
  - by rewrite length_fmap.
  - by apply displayed_elements_from.
  - intros Hno. by destruct (Segmented_no_marker _ _ _ Hno Hseg) as [-> ->].
Qed.

(** C10. [extractCitations] and the renderer agree on the citations of a
    text: [extractCitations] returns the markers of the text, as they are
    written and from left to right; these are the texts of the citation
    elements of the rendering, and there are as many of the ones as of the
    others. *)
Theorem extractCitations_agrees_with_renderContent (text : str) :
  (∃ t0 ms, Segmented text t0 ms ∧
            extractCitations text = (λ m, marker_text m.1.1 m.1.2) <$> ms) ∧
  extractCitations text =
    (λ c, marker_text c.1 (default [] c.2)) <$> citations (renderContent text) ∧
  length (extractCitations text) = length (citations (renderContent text)).
Proof.
  destruct (Segmented_total text) as (t0 & ms & Hseg).
  rewrite (renderContent_Segmented _ _ _ Hseg), citations_elements_from.
  rewrite (extractCitations_Segmented _ _ _ Hseg).
  split_and!.
  - by exists t0, ms.
  - rewrite <- list_fmap_compose. done.
  - by rewrite !length_fmap.
Qed.

(** ** Trimming *)

Section Trimming.

Implicit Types (s : str).

Lemma trimStart_blank s :
  trimStart s = [] ↔ Forall (λ c, isWhiteSpace c = true) s.
Proof.
  induction s as [|c s IH]; [by split|].
  cbn [trimStart]. destruct (isWhiteSpace c) eqn:Hc.
  - rewrite IH. split; [by constructor|by inversion 1].
  - split; [done|]. inversion 1; congruence.
Qed.

Lemma trimStart_head s c s' : trimStart s = c :: s' → isWhiteSpace c = false.
Proof.
  induction s as [|a s IH]; [done|]. cbn [trimStart].
  destruct (isWhiteSpace a) eqn:Ha; [done|]. by intros [= <- _].
Qed.

(** [trim] leaves nothing exactly of the strings made of white space. *)
Lemma trim_blank s : trim s = [] ↔ Forall (λ c, isWhiteSpace c = true) s.
Proof.
  unfold trim, trimEnd. split.
  - intros H. apply (f_equal reverse) in H.
    rewrite reverse_involutive, reverse_nil in H.
    apply trimStart_blank in H. rewrite Forall_reverse in H.
    destruct (trimStart s) as [|c s'] eqn:Hs; [by apply trimStart_blank|].
    apply trimStart_head in Hs. inversion H; congruence.
  - intros H. apply trimStart_blank in H. by rewrite H.
Qed.

Lemma truthy_trim_blank s :
  truthy (trim s) = false ↔ Forall (λ c, isWhiteSpace c = true) s.
Proof. rewrite <- trim_blank. by destruct (trim s). Qed.

End Trimming.

(** ** The chat transcript *)

Section ChatFacts.

Import Chat.

Implicit Types (st cur : State) (w : World).

Lemma handleSubmit_start_guarded st :
  truthy (trim (input st)) = false ∨ isLoading st = true →
  handleSubmit_start st = (st, Returned).
Proof.
  intros H. unfold handleSubmit_start.
  destruct H as [-> | ->]; [done|]. by rewrite orb_true_r.
Qed.

Lemma handleSubmit_start_issue st :
  truthy (trim (input st)) = true → isLoading st = false →
  handleSubmit_start st =
  ({| messages := newMessages st; input := []; isLoading := true;
      ragOnly := ragOnly st; sourcesTable := sourcesTable st |},
   Awaiting (newMessages st) (chatRequest st)).
Proof. intros Hin Hl. unfold handleSubmit_start. rewrite Hin, Hl. done. Qed.

(** When the call succeeds, the transcript is the one held since the
    submission with the answer appended, whatever happened to the state in
    between. *)
Lemma handleSubmit_resume_success held response cur :
  handleSubmit_resume held (inr response) cur =
  ({| messages := held ++ [assistantMessage response];
      input := input cur; isLoading := false; ragOnly := ragOnly cur;
      sourcesTable :=
        if 0 <? length (sources response)
        then <[messageId (length held) := sources response]>
               (sourcesTable cur)
        else sourcesTable cur |}, inr tt).
Proof.
  unfold handleSubmit_resume, try_finally, try_catch, bind, await, ret.
  rewrite length_app. cbn [length].
  replace (length held + 1 - 1) with (length held) by lia.
  by destruct (0 <? length (sources response)).
Qed.

(** When the call fails, an apology is appended to the transcript as it is
    then. *)
Lemma handleSubmit_resume_failure held e cur :
  handleSubmit_resume held (inl e) cur =
  ({| messages := messages cur ++ [errorMessage (handleApiError e)];
      input := input cur; isLoading := false; ragOnly := ragOnly cur;
      sourcesTable := sourcesTable cur |}, inr tt).
Proof. done. Qed.

Lemma handleSubmit_resume_not_loading held settled cur :
  isLoading (handleSubmit_resume held settled cur).1 = false.
Proof.
  destruct settled as [e|response].
  - by rewrite handleSubmit_resume_failure.
  - by rewrite handleSubmit_resume_success.
Qed.

Lemma sourcesOf_stored held response cur :
  sources response ≠ [] →
  sourcesOf (handleSubmit_resume held (inr response) cur).1 (length held)
  = Some (sources response).
Proof.
  intros Hne. rewrite handleSubmit_resume_success.
  unfold sourcesOf. cbn [fst sourcesTable].
  destruct (sources response) as [|c l]; [done|].
  cbn [length Nat.ltb Nat.leb]. by rewrite lookup_insert_eq.
Qed.

Lemma length_newMessages st : length (newMessages st) = length (messages st) + 1.
Proof. unfold newMessages. rewrite length_app. done. Qed.

(** A request is in flight exactly while [isLoading] is set. *)
Lemma reachable_inflight w :
  reachable w →
  length (inflight w) = if isLoading (ui w) then 1 else 0.
Proof.
  induction 1 as [|w ev Hw IH]; [done|].
  destruct ev as [|s| | |i settled]; cbn [step]; try done.
  - revert IH. unfold handleSubmit_start.
    destruct (truthy (trim (input (ui w)))), (isLoading (ui w)) eqn:Hl;
      cbn; intros IH; rewrite ?Hl; try done.
    rewrite length_app, IH. done.
  - destruct (inflight w !! i) as [p|] eqn:Hp; [|done].
    cbn [ui inflight]. rewrite handleSubmit_resume_not_loading.
    apply lookup_lt_Some in Hp as Hlt.
    rewrite length_delete by eauto.
    destruct (isLoading (ui w)); lia.
Qed.

End ChatFacts.

(** A submission whose call succeeds, in the words of [handleSubmit]. *)
Lemma handleSubmit_success_held
    (chat : ChatRequest → thrown + ChatResponse) (st : Chat.State)
    (response : ChatResponse) :
  truthy (trim (Chat.input st)) = true →
  Chat.isLoading st = false →
  chat (Chat.chatRequest st) = inr response →
  (∃ st',
    Chat.handleSubmit chat st = (st', inr tt) ∧
    Chat.messages st' =
      Chat.messages st ++
      [Chat.userMessage st; Chat.assistantMessage response] ∧
    length (Chat.messages st') = length (Chat.messages st) + 2 ∧
    Chat.messages st' !! (length (Chat.messages st) + 1) =
      Some (Chat.assistantMessage response) ∧
    (sources response ≠ [] →
     Chat.sourcesOf st' (length (Chat.messages st) + 1) =
       Some (sources response))) ∧
  (∀ cur, ∃ st',
    Chat.handleSubmit_resume (Chat.newMessages st) (inr response) cur
      = (st', inr tt) ∧
    Chat.messages st' =
      Chat.messages st ++
      [Chat.userMessage st; Chat.assistantMessage response] ∧
    (sources response ≠ [] →
     Chat.sourcesOf st' (length (Chat.messages st) + 1) =
       Some (sources response))).
Proof.
  intros Hin Hl Hchat.
  assert (Hresume : ∀ cur, ∃ st',
    Chat.handleSubmit_resume (Chat.newMessages st) (inr response) cur
      = (st', inr tt) ∧
    Chat.messages st' =
      Chat.messages st ++
      [Chat.userMessage st; Chat.assistantMessage response] ∧
    (sources response ≠ [] →
     Chat.sourcesOf st' (length (Chat.messages st) + 1) =
       Some (sources response))).
  { intros cur. eexists. split; [apply handleSubmit_resume_success|].
    cbn [Chat.messages]. unfold Chat.newMessages at 1.
    rewrite <- app_assoc. split; [done|]. intros Hne.
    rewrite <- length_newMessages.
    pose proof (sourcesOf_stored (Chat.newMessages st) response cur Hne) as H.
    by rewrite handleSubmit_resume_success in H. }
  split; [|exact Hresume].
  unfold Chat.handleSubmit. rewrite handleSubmit_start_issue by done.
  cbv beta iota zeta. rewrite Hchat.
  destruct (Hresume
    {| Chat.messages := Chat.newMessages st; Chat.input := [];
       Chat.isLoading := true; Chat.ragOnly := Chat.ragOnly st;
       Chat.sourcesTable := Chat.sourcesTable st |})
    as (st' & -> & Hmsgs & Hsrc).
  exists st'. rewrite Hmsgs. split_and!; try done.
  - rewrite length_app. cbn. lia.
  - rewrite lookup_app_r by lia.
    by replace (length (Chat.messages st) + 1 - length (Chat.messages st))
      with 1 by lia.
Qed.

(** C2. After a submission whose call succeeds, the transcript is the one
    before it followed by the user's message (the input, trimmed) and by
    a message of the assistant whose content is the answer, so it is
    longer by 2, and sources that came with the answer are found under the
    key [assistant-] followed by the position of the assistant's message;
    no error escapes.  The same holds of the transcript when other events
    have changed the state while the call was pending. *)
Theorem handleSubmit_success
    (chat : ChatRequest → thrown + ChatResponse) (st : Chat.State)
    (response : ChatResponse) :
  truthy (trim (Chat.input st)) = true →
  Chat.isLoading st = false →
  chat {| req_messages :=
            Chat.messages st ++
            [{| role := user; content := trim (Chat.input st) |}];
          req_stream := false;
          req_rag_only := Chat.ragOnly st |} = inr response →
  (∃ st',
    Chat.handleSubmit chat st = (st', inr tt) ∧
    Chat.messages st' =
      Chat.messages st ++
      [{| role := user; content := trim (Chat.input st) |};
       {| role := assistant; content := answer response |}] ∧
    length (Chat.messages st') = length (Chat.messages st) + 2 ∧
    Chat.messages st' !! (length (Chat.messages st) + 1) =
      Some {| role := assistant; content := answer response |} ∧
    (sources response ≠ [] →
     Chat.sourcesTable st' !!
       (js "assistant-" ++ Number_toString (length (Chat.messages st) + 1)) =
       Some (sources response))) ∧
  (∀ cur, ∃ st',
    Chat.handleSubmit_resume
      (Chat.messages st ++
       [{| role := user; content := trim (Chat.input st) |}])
      (inr response) cur
      = (st', inr tt) ∧
    Chat.messages st' =
      Chat.messages st ++
      [{| role := user; content := trim (Chat.input st) |};
       {| role := assistant; content := answer response |}] ∧
    (sources response ≠ [] →
     Chat.sourcesTable st' !!
       (js "assistant-" ++ Number_toString (length (Chat.messages st) + 1)) =
       Some (sources response))).
Proof. exact (handleSubmit_success_held chat st response). Qed.

(** A submission whose call fails, in the words of [handleSubmit]. *)
Lemma handleSubmit_failure_held
    (chat : ChatRequest → thrown + ChatResponse) (st : Chat.State)
    (e : thrown) :
  truthy (trim (Chat.input st)) = true →
  Chat.isLoading st = false →
  chat (Chat.chatRequest st) = inl e →
  (∃ st',
    Chat.handleSubmit chat st = (st', inr tt) ∧
    Chat.messages st' =
      Chat.messages st ++
      [Chat.userMessage st; Chat.errorMessage (handleApiError e)] ∧
    length (Chat.messages st') = length (Chat.messages st) + 2 ∧
    Chat.isLoading st' = false ∧
    Chat.sourcesTable st' = Chat.sourcesTable st) ∧
  role (Chat.errorMessage (handleApiError e)) = assistant ∧
  content (Chat.errorMessage (handleApiError e)) =
    js "Sorry, I encountered an error: " ++
    api_message (handleApiError e) ++ js ". Please try again." ∧
  (∀ cur, ∃ st',
    Chat.handleSubmit_resume (Chat.newMessages st) (inl e) cur
      = (st', inr tt) ∧
    Chat.messages st' =
      Chat.messages cur ++ [Chat.errorMessage (handleApiError e)] ∧
    Chat.isLoading st' = false).
Proof.
  intros Hin Hl Hchat. split_and!; [|done|done|].
  - unfold Chat.handleSubmit. rewrite handleSubmit_start_issue by done.
    cbv beta iota zeta. rewrite Hchat, handleSubmit_resume_failure.
    eexists. split; [done|]. cbn [Chat.messages Chat.isLoading Chat.sourcesTable].
    unfold Chat.newMessages. rewrite <- app_assoc. split_and!; try done.
    rewrite length_app. cbn. lia.
  - intros cur. eexists. split; [apply handleSubmit_resume_failure|done].
Qed.

(** C3, as the code has it. When the call of a submission fails, no
    error escapes: whatever the state at that time, a message of the
    assistant whose content has the message of the normalised error in
    it is appended to the transcript as it is then, and the component
    stops loading; so does the settlement of any request in flight of the
    component.  When nothing else happened while the call was pending,
    the transcript is the one before the submission followed by the user's
    message and by that message: it is longer by 2. *)
Theorem handleSubmit_failure
    (chat : ChatRequest → thrown + ChatResponse) (st : Chat.State)
    (e : thrown) :
  truthy (trim (Chat.input st)) = true →
  Chat.isLoading st = false →
  chat {| req_messages :=
            Chat.messages st ++
            [{| role := user; content := trim (Chat.input st) |}];
          req_stream := false;
          req_rag_only := Chat.ragOnly st |} = inl e →
  (∃ st',
    Chat.handleSubmit chat st = (st', inr tt) ∧
    Chat.messages st' =
      Chat.messages st ++
      [{| role := user; content := trim (Chat.input st) |};
       {| role := assistant;
          content := js "Sorry, I encountered an error: " ++
                     api_message (handleApiError e) ++
                     js ". Please try again." |}] ∧
    length (Chat.messages st') = length (Chat.messages st) + 2 ∧
    Chat.isLoading st' = false ∧
    Chat.sourcesTable st' = Chat.sourcesTable st) ∧
  (∀ cur, ∃ st',
    Chat.handleSubmit_resume
      (Chat.messages st ++
       [{| role := user; content := trim (Chat.input st) |}])
      (inl e) cur
      = (st', inr tt) ∧
    Chat.messages st' =
      Chat.messages cur ++
      [{| role := assistant;
          content := js "Sorry, I encountered an error: " ++
                     api_message (handleApiError e) ++
                     js ". Please try again." |}] ∧
    Chat.isLoading st' = false) ∧
  (∀ w i p, Chat.inflight w !! i = Some p →
    Chat.messages (Chat.ui (Chat.step w (Chat.Settle i (inl e)))) =
      Chat.messages (Chat.ui w) ++
      [{| role := assistant;
          content := js "Sorry, I encountered an error: " ++
                     api_message (handleApiError e) ++
                     js ". Please try again." |}] ∧
    Chat.isLoading (Chat.ui (Chat.step w (Chat.Settle i (inl e)))) = false ∧
    Chat.inflight (Chat.step w (Chat.Settle i (inl e))) =
      delete i (Chat.inflight w)).
Proof.
  intros Hin Hl Hchat.
  destruct (handleSubmit_failure_held chat st e Hin Hl Hchat)
    as (Hrun & _ & _ & Hresume).
  split_and!; [exact Hrun|exact Hresume|].
  intros w i p Hp. cbn [Chat.step]. rewrite Hp.
  cbn [Chat.ui Chat.inflight]. by rewrite handleSubmit_resume_failure.
Qed.

(** C4. In every state the component can reach, at most one request is in
    flight; and submitting while the component is loading changes nothing:
    not the transcript, not the table of sources, and no request is
    posted. *)
Theorem at_most_one_request_in_flight (w : Chat.World) :
  Chat.reachable w →
  length (Chat.inflight w) ≤ 1 ∧
  (Chat.isLoading (Chat.ui w) = true →
   Chat.step w Chat.Submit = w ∧
   Chat.handleSubmit_start (Chat.ui w) = (Chat.ui w, Chat.Returned)).
Proof.
  intros Hw. split.
  - rewrite (reachable_inflight w Hw). destruct (Chat.isLoading _); lia.
  - intros Hl. cbn [Chat.step].
    rewrite handleSubmit_start_guarded by auto. by destruct w.
Qed.

(** C5. Submitting an input that is empty or made of white space only
    changes nothing: not the transcript, not the table of sources, and no
    request is posted. *)
Theorem submit_blank_input (w : Chat.World) :
  Forall (λ c, isWhiteSpace c = true) (Chat.input (Chat.ui w)) →
  Chat.step w Chat.Submit = w ∧
  Chat.handleSubmit_start (Chat.ui w) = (Chat.ui w, Chat.Returned) ∧
  ∀ chat, Chat.handleSubmit chat (Chat.ui w) = (Chat.ui w, inr tt).
Proof.
  intros Hblank. apply truthy_trim_blank in Hblank.
  unfold Chat.handleSubmit. cbn [Chat.step].
  rewrite handleSubmit_start_guarded by auto. by destruct w.
Qed.

(** ** Filtering the documents *)

Section FilterFacts.

Context {A : Type}.

Lemma filter_filter_comm (f g : A → bool) (l : list A) :
  List.filter f (List.filter g l) = List.filter g (List.filter f l).
Proof.
  induction l as [|x l IH]; [done|]. cbn [List.filter].
  destruct (f x) eqn:Hf, (g x) eqn:Hg; cbn [List.filter];
    rewrite ?Hf, ?Hg, IH; done.
Qed.

Lemma elem_of_List_filter (f : A → bool) (l : list A) (x : A) :
  x ∈ List.filter f l ↔ x ∈ l ∧ f x = true.
Proof. rewrite !list_elem_of_In. apply filter_In. Qed.

End FilterFacts.

(** C7. Filtering by tag what was filtered by query gives the same
    documents, in the same order, as filtering by query what was filtered
    by tag, and as filtering by both at once; a document is kept when its
    file name or one of its tags contains the query, cases aside, and when
    its tags include the selected tag (an empty query or tag keeps
    everything). *)
Theorem filterDocuments_commute
    (toLowerCase : str → str) (docs : list DocumentInfo) (x a : str) :
  Docs.filterDocuments toLowerCase (Docs.filterDocuments toLowerCase docs x []) [] a
  = Docs.filterDocuments toLowerCase (Docs.filterDocuments toLowerCase docs [] a) x []
  ∧ Docs.filterDocuments toLowerCase (Docs.filterDocuments toLowerCase docs x []) [] a
    = Docs.filterDocuments toLowerCase docs x a
  ∧ ∀ doc,
      doc ∈ Docs.filterDocuments toLowerCase docs x a ↔
      doc ∈ docs ∧
      (x = [] ∨
       includes (toLowerCase (filename doc)) (toLowerCase x) = true ∨
       ∃ t, t ∈ tags doc ∧ includes (toLowerCase t) (toLowerCase x) = true) ∧
      (a = [] ∨ a ∈ tags doc).
Proof.
  unfold Docs.filterDocuments. cbn [truthy]. split_and!.
  - destruct (truthy x), (truthy a); try done. apply filter_filter_comm.
  - done.
  - intros doc.
    assert (Hq : Docs.matchesQuery toLowerCase (toLowerCase x) doc = true ↔
      includes (toLowerCase (filename doc)) (toLowerCase x) = true ∨
      ∃ t, t ∈ tags doc ∧ includes (toLowerCase t) (toLowerCase x) = true).
    { unfold Docs.matchesQuery. rewrite orb_true_iff, existsb_exists.
      by setoid_rewrite list_elem_of_In. }
    assert (Ht : Docs.hasTag a doc = true ↔ a ∈ tags doc).
    { unfold Docs.hasTag, array_includes. apply bool_decide_eq_true. }
    destruct x as [|cx x], a as [|ca a]; cbn [truthy];
      rewrite ?elem_of_List_filter, ?Hq, ?Ht; intuition (auto; discriminate).
Qed.

(** ** The tags of an upload *)

Section SplitFacts.

Implicit Types (s cur : str) (sep : char).

Lemma split_on_from_nonempty sep cur s : split_on_from sep cur s ≠ [].
Proof.
  revert cur. induction s as [|c s IH]; intros cur; [done|].
  cbn [split_on_from]. destruct (c =? sep)%N; [done|apply IH].
Qed.

Lemma join_cons sep_str p ps :
  ps ≠ [] → join sep_str (p :: ps) = p ++ sep_str ++ join sep_str ps.
Proof. by destruct ps. Qed.

(** Joining the pieces gives the string back. *)
Lemma join_split_on_from sep cur s :
  join [sep] (split_on_from sep cur s) = cur ++ s.
Proof.
  revert cur. induction s as [|c s IH]; intros cur.
  - cbn. by rewrite app_nil_r.
  - cbn [split_on_from]. destruct (c =? sep)%N eqn:Hc.
    + apply N.eqb_eq in Hc as ->.
      rewrite join_cons by apply split_on_from_nonempty.
      by rewrite IH.
    + rewrite IH, <- app_assoc. done.
Qed.

(** No piece has the separator in it. *)
Lemma split_on_from_no_sep sep cur s :
  sep ∉ cur → Forall (λ p, sep ∉ p) (split_on_from sep cur s).
Proof.
  revert cur. induction s as [|c s IH]; intros cur Hcur.
  - by repeat constructor.
  - cbn [split_on_from]. destruct (c =? sep)%N eqn:Hc.
    + constructor; [done|]. apply IH. by apply not_elem_of_nil.
    + apply IH. rewrite elem_of_app, list_elem_of_singleton.
      apply N.eqb_neq in Hc. by intros [?|?].
Qed.

Lemma trimStart_suffix s :
  ∃ pre, s = pre ++ trimStart s ∧ Forall (λ c, isWhiteSpace c = true) pre.
Proof.
  induction s as [|c s (pre & IH & Hpre)]; [by exists []|].
  cbn [trimStart]. destruct (isWhiteSpace c) eqn:Hc.
  - exists (c :: pre). split; [by rewrite IH at 1|by constructor].
  - by exists [].
Qed.

(** A trimmed string neither begins nor ends with white space. *)
Lemma trim_ends s c :
  head (trim s) = Some c ∨ last (trim s) = Some c → isWhiteSpace c = false.
Proof.
  unfold trim, trimEnd. rewrite head_reverse, last_reverse.
  set (u := trimStart s). set (v := trimStart (reverse u)).
  intros [Hlast|Hhead].
  - destruct (trimStart_suffix (reverse u)) as (pre & Hru & _).
    fold v in Hru.
    assert (last (reverse u) = Some c) as Hl.
    { rewrite Hru. destruct v as [|x v'] using rev_ind; [done|].
      rewrite last_snoc in Hlast. rewrite app_assoc, last_snoc. done. }
    rewrite last_reverse in Hl.
    destruct u as [|x u'] eqn:Hu; [done|]. injection Hl as ->.
    by eapply trimStart_head.
  - destruct v as [|x v'] eqn:Hv; [done|]. injection Hhead as ->.
    by eapply trimStart_head.
Qed.

End SplitFacts.

(** C6, as the code has it. At the time of the upload the tag input is
    cut at its commas, each piece is trimmed and the pieces left empty are
    dropped: the tags sent are non-empty, neither begin nor end with white
    space, and come in the order of the input, a tag that was entered
    twice being sent twice. *)
Theorem parseTags_spec (input : str) :
  ∃ pieces,
    join [COMMA] pieces = input ∧
    Forall (λ p, COMMA ∉ p) pieces ∧
    parseTags input =
      List.filter (λ t, negb (bool_decide (t = []))) (trim <$> pieces) ∧
    Forall (λ t, t ≠ [] ∧
                 ∀ c, head t = Some c ∨ last t = Some c →
                      isWhiteSpace c = false)
           (parseTags input).
Proof.
  exists (split_on COMMA input). unfold split_on, parseTags. split_and!.
  - apply join_split_on_from.
  - apply split_on_from_no_sep, not_elem_of_nil.
  - apply filter_ext. by intros [|??].
  - rewrite Forall_forall. intros t Ht.
    apply elem_of_List_filter in Ht as [Ht Hlen].
    apply list_elem_of_fmap in Ht as (p & -> & _). split.
    + intros Heq. by rewrite Heq in Hlen.
    + apply trim_ends.
Qed.

(** C6, as stated, fails: a tag entered twice is sent twice. *)
Lemma parseTags_keeps_duplicates :
  parseTags (js "a, a") = [js "a"; js "a"] ∧
  ¬ NoDup (parseTags (js "a, a")) ∧
  tagsField (parseTags (js "a, a")) = Some (js "a,a").
Proof.
  split_and!; [by vm_compute| |by vm_compute].
  replace (parseTags (js "a, a")) with [js "a"; js "a"] by (by vm_compute).
  rewrite NoDup_cons. intros [H _]. apply H. by left.
Qed.

(** ** The streamed answer *)

Section StreamFacts.

Import Stream.

Variable JSON_parse : str → option json.

Implicit Types (line buffer body : str) (lines : list str) (out : Output).

Lemma on_line_spec line out :
  on_line JSON_parse line out =
  if is_done line then (out, true)
  else (after_line JSON_parse line out, false).
Proof.
  unfold on_line, is_done, after_line, token_yielded, token_field,
    warned_payload, payload.
  destruct out as [toks warns].
  destruct (startsWith line (js "data: ")); cbn [tokens warnings mbind option_bind].
  2:{ rewrite bool_decide_eq_false_2 by done. by rewrite !app_nil_r. }
  destruct (decide (drop 6 line = js "[DONE]")) as [Heq|Hne].
  { rewrite !bool_decide_eq_true_2; [done|by f_equal|done]. }
  rewrite !bool_decide_eq_false_2; [|by intros [= ?]|done].
  destruct (JSON_parse (drop 6 line)) as [parsed|];
    cbn [mbind option_bind option_list]; [|by rewrite !app_nil_r].
  destruct parsed as [|b|n|t|items|fields]; cbn [get_token];
    try (cbn [truthy_value]; by rewrite !app_nil_r).
  destruct (get_field fields (js "token")) as [v|];
    cbn [mbind option_bind]; [|cbn [truthy_value]; by rewrite !app_nil_r].
  destruct (truthy_value (Some v)); cbn [from_option option_list yield warn
    tokens warnings]; by rewrite !app_nil_r.
Qed.

(** A token that is not truthy is not yielded, whatever the parser. *)
Lemma on_line_falsy_token line data fields v out :
  payload line = Some data → data ≠ js "[DONE]" →
  JSON_parse data = Some (JObject fields) →
  get_field fields (js "token") = Some v →
  truthy_value (Some v) = false →
  on_line JSON_parse line out = (out, false).
Proof.
  unfold payload, on_line. intros Hp Hne Hparse Hfield Hfalsy.
  destruct (startsWith line (js "data: ")); [|done].
  injection Hp as ->. rewrite bool_decide_eq_false_2 by done.
  rewrite Hparse. cbn [get_token]. by rewrite Hfield, Hfalsy.
Qed.

Lemma for_lines_spec lines out :
  for_lines JSON_parse lines out =
  ({| tokens := tokens out ++ omap (token_yielded JSON_parse) (live lines);
      warnings := warnings out ++ omap (warned_payload JSON_parse) (live lines) |},
   existsb is_done lines).
Proof.
  revert out. induction lines as [|line lines IH]; intros out.
  - destruct out. cbn. by rewrite !app_nil_r.
  - cbn [for_lines live existsb]. rewrite on_line_spec.
    destruct (is_done line); cbn [orb].
    + destruct out. cbn. by rewrite !app_nil_r.
    + rewrite IH. unfold after_line. cbn [tokens warnings omap list_omap].
      destruct (token_yielded JSON_parse line), (warned_payload JSON_parse line);
        cbn [option_list]; by rewrite <- ?app_assoc, ?app_nil_r.
Qed.

Lemma live_app lines lines' :
  live (lines ++ lines') =
  if existsb is_done lines then live lines else lines ++ live lines'.
Proof.
  induction lines as [|line lines IH]; [done|].
  cbn [app live existsb]. destruct (is_done line); [done|].
  cbn [orb]. rewrite IH. by destruct (existsb is_done lines).
Qed.

Lemma live_no_done lines : existsb is_done lines = false → live lines = lines.
Proof.
  induction lines as [|line lines IH]; [done|].
  cbn [live existsb]. destruct (is_done line); [done|].
  cbn [orb]. intros H. by rewrite IH.
Qed.

(** Reading on from a piece already read. *)
Lemma split_on_from_app sep cur (a b : str) :
  split_on_from sep cur (a ++ b) =
  removelast (split_on_from sep cur a) ++
  split_on_from sep (default [] (last (split_on_from sep cur a))) b.
Proof.
  revert cur. induction a as [|c a IH]; intros cur; [done|].
  cbn [app split_on_from]. destruct (c =? sep)%N; [|apply IH].
  rewrite IH.
  pose proof (split_on_from_nonempty sep [] a) as Hne.
  destruct (split_on_from sep [] a) as [|p ps]; [done|]. done.
Qed.

Lemma split_on_from_cur sep acc cur s :
  sep ∉ cur →
  split_on_from sep acc (cur ++ s) = split_on_from sep (acc ++ cur) s.
Proof.
  revert acc. induction cur as [|c cur IH]; intros acc Hcur.
  - by rewrite app_nil_r.
  - cbn [app split_on_from].
    destruct (c =? sep)%N eqn:Hc.
    + apply N.eqb_eq in Hc as ->. exfalso. apply Hcur. by left.
    + rewrite IH, <- app_assoc; [done|]. intros ?. apply Hcur. by right.
Qed.

Lemma last_split_on_from_no_sep sep cur s :
  sep ∉ cur → sep ∉ default [] (last (split_on_from sep cur s)).
Proof.
  intros Hcur. pose proof (split_on_from_no_sep sep cur s Hcur) as Hall.
  destruct (last (split_on_from sep cur s)) as [p|] eqn:Hl; [|apply not_elem_of_nil].
  rewrite Forall_forall in Hall. apply Hall.
  apply last_Some in Hl as [l' ->]. rewrite elem_of_app, list_elem_of_singleton. auto.
Qed.

(** The complete lines of a stream are the complete lines of what was
    read, then those of what is left with what follows. *)
Lemma complete_lines_app buffer value rest :
  LF ∉ buffer →
  complete_lines (buffer ++ value ++ rest) =
  complete_lines (buffer ++ value) ++
  complete_lines (default [] (last (split_on LF (buffer ++ value))) ++ rest).
Proof.
  intros Hbuf. unfold complete_lines, split_on.
  rewrite app_assoc, split_on_from_app.
  set (lines := split_on_from LF [] (buffer ++ value)).
  assert (LF ∉ default [] (last lines)) as Hlast.
  { apply last_split_on_from_no_sep, not_elem_of_nil. }
  rewrite (split_on_from_cur LF [] _ rest Hlast). cbn [app].
  rewrite removelast_app by apply split_on_from_nonempty. done.
Qed.

Lemma read_loop_spec chunks ending buffer out :
  LF ∉ buffer →
  read_loop JSON_parse chunks ending buffer out =
  let lines := complete_lines (buffer ++ concat chunks) in
  ({| tokens := tokens out ++ omap (token_yielded JSON_parse) (live lines);
      warnings := warnings out ++ omap (warned_payload JSON_parse) (live lines) |},
   if existsb is_done lines then Returns
   else match ending with
        | None => Returns
        | Some e => Throws (handleApiError e)
        end).
Proof.
  revert buffer out. induction chunks as [|value chunks IH]; intros buffer out Hbuf.
  - cbn [read_loop concat]. rewrite app_nil_r. cbv zeta.
    assert (complete_lines buffer = []) as ->.
    { unfold complete_lines, split_on.
      rewrite <- (app_nil_r buffer), split_on_from_cur by done. done. }
    destruct out. cbn. rewrite !app_nil_r. by destruct ending.
  - cbn [read_loop concat]. cbv zeta.
    rewrite complete_lines_app by done.
    fold (complete_lines (buffer ++ value)).
    rewrite for_lines_spec, live_app, existsb_app.
    destruct (existsb is_done (complete_lines (buffer ++ value))) eqn:Hdone;
      cbn [orb]; [done|].
    rewrite IH by (apply last_split_on_from_no_sep, not_elem_of_nil).
    cbv zeta. cbn [tokens warnings].
    rewrite (live_no_done _ Hdone), !omap_app, <- !app_assoc.
    rewrite <- (live_no_done _ Hdone) at 1 3. done.
Qed.

End StreamFacts.

(** C8, as the code has it. The generator works through the complete
    lines of the stream, in order, up to the terminal event [data: [DONE]],
    at which it returns; a line whose payload does not parse is warned
    about and skipped, the lines after it being worked through all the
    same; and a line whose payload parses to an object with a [token]
    field yields that token when the token is truthy: an empty token (or
    [0], [false], [null]) is not yielded.  The generator throws only when
    a read fails before the terminal event. *)
Theorem streamChat_spec
    (JSON_parse : str → option Stream.json)
    (chunks : list str) (ending : option thrown) :
  Stream.streamChat JSON_parse (inr (chunks, ending)) =
  ({| Stream.tokens :=
        omap (Stream.token_yielded JSON_parse)
             (Stream.live (Stream.complete_lines (concat chunks)));
      Stream.warnings :=
        omap (Stream.warned_payload JSON_parse)
             (Stream.live (Stream.complete_lines (concat chunks))) |},
   if existsb Stream.is_done (Stream.complete_lines (concat chunks))
   then Stream.Returns
   else match ending with
        | None => Stream.Returns
        | Some e => Stream.Throws (handleApiError e)
        end).
Proof.
  unfold Stream.streamChat.
  rewrite read_loop_spec by apply not_elem_of_nil. done.
Qed.

(** C8, as stated, fails: the payload [{"token":""}] parses to an object
    with a [token] field, and nothing is yielded for it. *)
Lemma streamChat_drops_empty_token :
  Stream.token_field parse_token_object empty_token_line
    = Some (Stream.JString []) ∧
  Stream.streamChat parse_token_object
    (inr ([empty_token_line ++ [Stream.LF]], None))
    = (Stream.nothing, Stream.Returns) ∧
  Stream.tokens
    (Stream.streamChat parse_token_object
       (inr ([empty_token_line ++ [Stream.LF]], None))).1
    ≠ omap (Stream.token_field parse_token_object)
        (Stream.live
           (Stream.complete_lines (concat [empty_token_line ++ [Stream.LF]]))).
Proof. split_and!; [by vm_compute|by vm_compute|]. vm_compute. done. Qed.

(** ** The document list and its debounced calls *)

Section DocsFacts.

Import Docs.

Variable toLowerCase : str → str.

Implicit Types (w : World) (st : State) (docId : str).

Lemma reachable_run evs : reachable toLowerCase (run toLowerCase evs).
Proof.
  unfold run. induction evs as [|ev evs IH] using rev_ind.
  - constructor.
  - rewrite foldl_app. cbn [foldl]. by constructor.
Qed.

Lemma filterDocuments_subseteq docs query tag :
  filterDocuments toLowerCase docs query tag ⊆ docs.
Proof.
  intros doc. unfold filterDocuments.
  destruct (truthy query), (truthy tag);
    rewrite ?elem_of_List_filter; tauto.
Qed.

(** Right after a deletion that succeeded, the document is in neither
    list. *)
Lemma delete_settled_removes w i docId :
  deletes w !! i = Some docId →
  let st' := ui (step toLowerCase w (DeleteSettled i (inr tt))) in
  (docId ∉ doc_id <$> documents st') ∧
  (docId ∉ doc_id <$> filteredDocuments st').
Proof.
  intros Hi. cbn [step]. rewrite Hi. cbn.
  split; intros (doc & -> & Hin)%list_elem_of_fmap;
    apply elem_of_List_filter in Hin as [_ Hkeep];
    apply negb_true_iff, bool_decide_eq_false in Hkeep; done.
Qed.

(** The debounced call scheduled last holds the documents as they are;
    so once every debounced call has run, the filtered list is part of
    the full list. *)
Lemma reachable_last_timer w :
  reachable toLowerCase w →
  (∀ c, last (timers w) = Some c → seen_documents c = documents (ui w)) ∧
  (timers w = [] → filteredDocuments (ui w) ⊆ documents (ui w)).
Proof.
  induction 1 as [|w ev Hw [IHlast IHsub]].
  { split; [|done]. by intros c [= <-]. }
  assert (Heff : ∀ st w0,
    (∀ c, last (timers (effect st w0)) = Some c →
          seen_documents c = documents (ui (effect st w0))) ∧
    (timers (effect st w0) = [] →
     filteredDocuments (ui (effect st w0)) ⊆ documents (ui (effect st w0)))).
  { intros st w0. cbn. split.
    - intros c. rewrite last_snoc. by intros [= <-].
    - by intros ?%app_eq_nil%proj2. }
  destruct ev as [|[err|items]|q|t|d| | |i [err|[]]|]; cbn [step].
  - done.
  - destruct (loads w); done.
  - destruct (loads w); [done|apply Heff].
  - destruct (_ || _); [done|apply Heff].
  - destruct (_ || _); [done|apply Heff].
  - destruct (_ && _); done.
  - destruct (interactive _); done.
  - destruct (deleteConfirm _) as [d|]; [|done].
    destruct (_ && _); [split; assumption|done].
  - destruct (deletes w !! i); [split; assumption|done].
  - destruct (deletes w !! i); [apply Heff|done].
  - destruct (timers w) as [|c pending] eqn:Ht.
    { split; [by rewrite Ht|intros _; by apply IHsub]. }
    cbn. split.
    + intros c' Hc'. apply IHlast. rewrite last_cons, Hc'. done.
    + intros ->. rewrite (IHlast c eq_refl).
      apply filterDocuments_subseteq.
Qed.

End DocsFacts.

(** C9 on the code. A list refreshed just before a deletion settles
    schedules a debounced call that holds the documents as they were;
    when its timer fires, after the deletion, it puts the deleted document
    back into the filtered list, which then is no part of the full list any
    more. *)
Theorem stale_filter_restores_deleted (toLowerCase : str → str) :
  Docs.reachable toLowerCase (Docs.run toLowerCase stale_trace) ∧
  Docs.documents (Docs.ui (Docs.run toLowerCase stale_trace)) = [notes_md] ∧
  Docs.filteredDocuments (Docs.ui (Docs.run toLowerCase stale_trace))
    = [report_pdf; notes_md] ∧
  ¬ (Docs.filteredDocuments (Docs.ui (Docs.run toLowerCase stale_trace))
     ⊆ Docs.documents (Docs.ui (Docs.run toLowerCase stale_trace))).
Proof.
  split; [apply reachable_run|].
  assert (Docs.ui (Docs.run toLowerCase stale_trace) =
          {| Docs.documents := [notes_md];
             Docs.filteredDocuments := [report_pdf; notes_md];
             Docs.loading := false; Docs.error := None;
             Docs.searchQuery := []; Docs.selectedTag := [];
             Docs.deleteConfirm := None |}) as ->.
  { by vm_compute. }
  cbn. split_and!; [done|done|].
  intros Hsub. specialize (Hsub report_pdf).
  rewrite list_elem_of_singleton in Hsub.
  discriminate Hsub. by left.
Qed.

(** ** The theorems at work *)

(** The question of the specification's example, answered. *)
Lemma handleSubmit_success_witness :
  truthy (trim (Chat.input asking)) = true ∧
  Chat.isLoading asking = false ∧
  answering
    {| req_messages :=
         Chat.messages asking ++
         [{| role := user; content := trim (Chat.input asking) |}];
       req_stream := false;
       req_rag_only := Chat.ragOnly asking |} = inr manual_response ∧
  ∃ st',
    Chat.handleSubmit answering asking = (st', inr tt) ∧
    Chat.messages st' =
      [ {| role := user; content := js "Where is it described?" |};
        {| role := assistant;
           content := js "See [manual.pdf#3] for details." |} ] ∧
    length (Chat.messages st') = length (Chat.messages asking) + 2 ∧
    Chat.sourcesTable st' !! js "assistant-1" =
      Some (sources manual_response).
Proof.
  split_and!; [reflexivity|reflexivity|reflexivity|].
  destruct (handleSubmit_success answering asking manual_response
              eq_refl eq_refl eq_refl)
    as [(st' & Hrun & Hmsgs & Hlen & _ & Hsrc) _].
  exists st'. split_and!; [exact Hrun| |exact Hlen|].
  - rewrite Hmsgs. reflexivity.
  - apply Hsrc. discriminate.
Defined.

(** The same question with the backend out of reach. *)
Lemma handleSubmit_failure_witness :
  truthy (trim (Chat.input asking)) = true ∧
  Chat.isLoading asking = false ∧
  unreachable
    {| req_messages :=
         Chat.messages asking ++
         [{| role := user; content := trim (Chat.input asking) |}];
       req_stream := false;
       req_rag_only := Chat.ragOnly asking |}
    = inl (AxiosError (js "Network Error") None) ∧
  ∃ st',
    Chat.handleSubmit unreachable asking = (st', inr tt) ∧
    Chat.messages st' =
      [ {| role := user; content := js "Where is it described?" |};
        {| role := assistant;
           content := js "Sorry, I encountered an error: Network Error. Please try again." |} ] ∧
    Chat.isLoading st' = false.
Proof.
  split_and!; [reflexivity|reflexivity|reflexivity|].
  destruct (handleSubmit_failure unreachable asking
              (AxiosError (js "Network Error") None)
              eq_refl eq_refl eq_refl)
    as [(st' & Hrun & Hmsgs & _ & Hl & _) _].
  exists st'. split_and!; [exact Hrun| |exact Hl].
  rewrite Hmsgs. reflexivity.
Defined.

(** Submitting again while the question is on its way. *)
Lemma at_most_one_request_in_flight_witness :
  Chat.reachable waiting ∧
  Chat.isLoading (Chat.ui waiting) = true ∧
  length (Chat.inflight waiting) ≤ 1 ∧
  (Chat.isLoading (Chat.ui waiting) = true →
   Chat.step waiting Chat.Submit = waiting ∧
   Chat.handleSubmit_start (Chat.ui waiting) =
     (Chat.ui waiting, Chat.Returned)).
Proof.
  assert (Chat.reachable waiting) as Hw.
  { apply Chat.reachable_step, Chat.reachable_step, Chat.reachable_start. }
  split; [exact Hw|]. split; [reflexivity|].
  apply (at_most_one_request_in_flight waiting Hw).
Defined.

(** Submitting a space, a tab and a line feed. *)
Lemma submit_blank_input_witness :
  Forall (λ c, isWhiteSpace c = true) (Chat.input (Chat.ui blanks)) ∧
  Chat.step blanks Chat.Submit = blanks ∧
  Chat.handleSubmit_start (Chat.ui blanks) = (Chat.ui blanks, Chat.Returned) ∧
  ∀ chat, Chat.handleSubmit chat (Chat.ui blanks) = (Chat.ui blanks, inr tt).
Proof.
  assert (Forall (λ c, isWhiteSpace c = true) (Chat.input (Chat.ui blanks)))
    as Hblank.
  { change (Forall (λ c, isWhiteSpace c = true) [32%N; 9%N; 10%N]).
    repeat constructor. }
  split; [exact Hblank|]. apply (submit_blank_input blanks Hblank).
Defined.

(** ** The renderer on examples *)

Example render_manual :
  renderContent (js "See [manual.pdf#3] for details.") =
  [ Some (TextSpan 0 (js "See "));
    Some (CitationSpan 1 (js "manual.pdf") (Some (js "3")));
    None;
    Some (TextSpan 3 (js " for details.")) ].
Proof. vm_compute. reflexivity. Qed.

Example render_nested_bracket :
  renderContent (js "x[y[a#1#22]]") =
  [ Some (TextSpan 0 (js "x"));
    Some (CitationSpan 1 (js "y[a#1") (Some (js "22")));
    None;
    Some (TextSpan 3 (js "]")) ].
Proof. vm_compute. reflexivity. Qed.

Example extract_two :
  extractCitations (js "a [x#1] b [y.md#20]") = [js "[x#1]"; js "[y.md#20]"].
Proof. vm_compute. reflexivity. Qed.

Example title_manual :
  (λ o, o ≫= title) <$> renderContent (js "See [manual.pdf#3] for details.")
  = [None; Some (js "Source: manual.pdf, Chunk: 3"); None; None].
Proof. vm_compute. reflexivity. Qed.

Example render_plain :
  renderContent (js "no [citation] here #1") =
  [ Some (TextSpan 0 (js "no [citation] here #1")) ].
Proof. vm_compute. reflexivity. Qed.

Example filter_by_query :
  Docs.filterDocuments asciiLowerCase [report_pdf; notes_md] (js "Report") []
  = [report_pdf].
Proof. vm_compute. reflexivity. Qed.

Example filter_by_tag :
  Docs.filterDocuments asciiLowerCase [report_pdf; notes_md] [] (js "draft")
  = [notes_md].
Proof. vm_compute. reflexivity. Qed.

Example parse_tags :
  parseTags (js " q3 , draft,, ,final ") = [js "q3"; js "draft"; js "final"].
Proof. vm_compute. reflexivity. Qed.

Example stream_two_tokens :
  Stream.streamChat parse_token_object
    (inr ([ js "data: {" ++ quoted (js "token") ++ js ":" ++ quoted (js "Hel")
              ++ js "}" ++ [Stream.LF] ++ js "data: oo";
            js "ps" ++ [Stream.LF] ++ js "data: {" ++ quoted (js "token")
              ++ js ":" ++ quoted (js "lo") ++ js "}" ++ [Stream.LF]
              ++ js "data: [DONE]" ++ [Stream.LF] ++ js "data: ignored" ],
          None))
  = ({| Stream.tokens := [Stream.JString (js "Hel"); Stream.JString (js "lo")];
        Stream.warnings := [js "oops"] |}, Stream.Returns).
Proof. vm_compute. reflexivity. Qed.

(** * Further properties of the code *)

(** ** [truncateText] *)

Lemma slice_to_nonneg (s : str) (n : Z) :
  (0 ≤ n)%Z → slice_to s n = take (Z.to_nat n) s.
Proof.
  intros Hn. unfold slice_to.
  destruct (n <? 0)%Z eqn:Hlt; [lia|].
  destruct (decide (n ≤ Z.of_nat (length s))%Z).
  - by rewrite Z.min_l by done.
  - rewrite Z.min_r by lia. rewrite Nat2Z.id.
    rewrite !take_ge; [done|lia|lia].
Qed.

(** X1. For a limit that is not negative, [truncateText] returns a text
    no longer than the limit as it is, and cuts a longer one to its first
    [maxLength] code units followed by three dots: the result is then
    three longer than the limit.  Truncating the result again changes
    nothing. *)
Theorem truncateText_spec (text : str) (maxLength : Z) :
  (0 ≤ maxLength)%Z →
  ((Z.of_nat (length text) ≤ maxLength)%Z → truncateText text maxLength = text) ∧
  ((maxLength < Z.of_nat (length text))%Z →
     truncateText text maxLength = take (Z.to_nat maxLength) text ++ js "..." ∧
     Z.of_nat (length (truncateText text maxLength)) = (maxLength + 3)%Z) ∧
  (Z.of_nat (length (truncateText text maxLength)) ≤ maxLength + 3)%Z ∧
  truncateText (truncateText text maxLength) maxLength
    = truncateText text maxLength.
Proof.
  intros Hn.
  assert (Hshort : (Z.of_nat (length text) ≤ maxLength)%Z →
                   truncateText text maxLength = text).
  { intros H. unfold truncateText. by rewrite (proj2 (Z.leb_le _ _) H). }
  assert (Hlong : (maxLength < Z.of_nat (length text))%Z →
     truncateText text maxLength = take (Z.to_nat maxLength) text ++ js "..." ∧
     Z.of_nat (length (truncateText text maxLength)) = (maxLength + 3)%Z).
  { intros H. unfold truncateText.
    rewrite (proj2 (Z.leb_gt _ _) H), slice_to_nonneg by done.
    split; [done|]. rewrite length_app, length_take. cbn. lia. }
  split_and!; [done|done| |].
  - destruct (decide (Z.of_nat (length text) ≤ maxLength)%Z) as [H|H].
    + rewrite Hshort by done. lia.
    + destruct Hlong as [_ ->]; lia.
  - destruct (decide (Z.of_nat (length text) ≤ maxLength)%Z) as [H|H].
    + by rewrite !Hshort.
    + destruct Hlong as [Heq Hlen]; [lia|].
      unfold truncateText at 1.
      rewrite (proj2 (Z.leb_gt _ _)) by lia.
      rewrite slice_to_nonneg by done. rewrite Heq at 1.
      rewrite take_app_le by (rewrite length_take; lia).
      rewrite take_take, Nat.min_id. done.
Qed.

Lemma truncateText_witness :
  (0 ≤ 5)%Z ∧
  truncateText (js "retrieval") 5 = js "retri..." ∧
  truncateText (js "retri...") 5 = js "retri...".
Proof.
  split; [lia|].
  destruct (truncateText_spec (js "retrieval") 5 ltac:(lia))
    as (_ & Hlong & _ & Hidem).
  destruct Hlong as [Heq _]; [cbn; lia|].
  split; [exact Heq|].
  rewrite Heq in Hidem. exact Hidem.
Defined.

(** A negative limit cuts from the end, and dots are added even to the
    empty text. *)
Example truncateText_negative :
  truncateText (js "retrieval") (-4) = js "retri..." ∧
  truncateText [] (-1) = js "...".
Proof. split; reflexivity. Qed.

(** ** [getFileExtension] *)

Section Extension.

Variable toLowerCase : str → str.

Implicit Types (s cur base ext : str) (sep : char).

Lemma or_else_Some_nil s : or_else (Some s) [] = s.
Proof. by destruct s. Qed.

Lemma split_on_from_no_sep_all sep cur s :
  sep ∉ s → split_on_from sep cur s = [cur ++ s].
Proof.
  revert cur. induction s as [|c s IH]; intros cur Hs.
  - by rewrite app_nil_r.
  - cbn [split_on_from]. destruct (c =? sep)%N eqn:Hc.
    + apply N.eqb_eq in Hc as ->. exfalso. apply Hs. by left.
    + rewrite IH, <- app_assoc; [done|]. intros ?. apply Hs. by right.
Qed.

Lemma last_split_on_from sep cur base ext :
  sep ∉ ext → last (split_on_from sep cur (base ++ sep :: ext)) = Some ext.
Proof.
  intros Hext. revert cur. induction base as [|c base IH]; intros cur.
  - cbn [app split_on_from]. rewrite N.eqb_refl.
    by rewrite split_on_from_no_sep_all.
  - cbn [app split_on_from]. destruct (c =? sep)%N; [|apply IH].
    rewrite last_cons, IH. done.
Qed.

End Extension.

(** X2. The extension of a file name is what follows its last dot, in
    lower case: nothing when the name ends with a dot; and a name without
    a dot is its own extension. *)
Theorem getFileExtension_spec (toLowerCase : str → str) :
  (∀ base ext, DOT ∉ ext →
     getFileExtension toLowerCase (base ++ [DOT] ++ ext) = toLowerCase ext) ∧
  (∀ name, DOT ∉ name → getFileExtension toLowerCase name = toLowerCase name).
Proof.
  unfold getFileExtension, split_on. split.
  - intros base ext Hext. cbn [app].
    rewrite last_split_on_from by done. apply or_else_Some_nil.
  - intros name Hname.
    rewrite split_on_from_no_sep_all by done. apply or_else_Some_nil.
Qed.

Example getFileExtension_examples :
  getFileExtension asciiLowerCase (js "Report.final.PDF") = js "pdf" ∧
  getFileExtension asciiLowerCase (js "README") = js "readme" ∧
  getFileExtension asciiLowerCase (js "notes.") = [].
Proof. split_and!; reflexivity. Qed.

(** ** [highlightCitations] *)

Section Highlighting.

Implicit Types (s t rest text pre : str) (ms : list (str * str * str)).

Lemma expand_highlightTemplate s :
  expand highlightTemplate s = openTag ++ s ++ closeTag.
Proof. reflexivity. Qed.

Lemma marker_text_cons fn ds :
  marker_text fn ds = LBRACKET :: fn ++ HASH :: ds ++ [RBRACKET].
Proof. reflexivity. Qed.

Lemma replace_loop_Segmented fuel text t0 ms :
  Segmented text t0 ms → length text < fuel →
  replace_loop fuel citationRegex highlightTemplate text = highlighted t0 ms.
Proof.
  intros Hseg. revert fuel.
  induction Hseg as [t Hfree|t fn ds rest t1 ms Hwf Hfree Hseg IH];
    intros [|fuel] Hfuel; try lia.
  - cbn [replace_loop highlighted]. rewrite exec_from_none by done.
    by rewrite app_nil_r.
  - cbn [replace_loop highlighted]. rewrite exec_from_marker by done.
    rewrite expand_highlightTemplate, !(marker_text_cons fn ds).
    cbn [app]. rewrite IH.
    + repeat (progress (rewrite <- ?app_assoc; cbn [app])). done.
    + rewrite !length_app, marker_text_length in Hfuel. lia.
Qed.

Lemma highlightCitations_Segmented text t0 ms :
  Segmented text t0 ms → highlightCitations text = highlighted t0 ms.
Proof. intros Hseg. eapply replace_loop_Segmented; [done|lia]. Qed.

Lemma length_highlighted text t0 ms :
  Segmented text t0 ms →
  length (highlighted t0 ms) = length text + 40 * length ms.
Proof.
  induction 1 as [t Hfree|t fn ds rest t1 ms Hwf Hfree Hseg IH].
  - cbn. rewrite app_nil_r. lia.
  - cbn [highlighted length]. rewrite !length_app, IH.
    change (length openTag) with 33. change (length closeTag) with 7. lia.
Qed.

End Highlighting.

(** X3. [highlightCitations] puts every citation marker of the text, and
    nothing else, between [<span class="citation-highlight">] and
    [</span>]: the result is longer than the text by 40 code units for
    each citation [extractCitations] finds, and a text without a marker
    comes back unchanged. *)
Theorem highlightCitations_spec (text : str) :
  (∃ t0 ms, Segmented text t0 ms ∧
            highlightCitations text = highlighted t0 ms) ∧
  length (highlightCitations text) =
    length text + 40 * length (extractCitations text) ∧
  ((∀ i, ¬ marker_at (drop i text)) → highlightCitations text = text).
Proof.
  destruct (Segmented_total text) as (t0 & ms & Hseg).
  rewrite (highlightCitations_Segmented _ _ _ Hseg).
  rewrite (extractCitations_Segmented _ _ _ Hseg), length_fmap.
  split_and!.
  - by exists t0, ms.
  - by apply length_highlighted.
  - intros Hno. destruct (Segmented_no_marker _ _ _ Hno Hseg) as [-> ->].
    cbn. by rewrite app_nil_r.
Qed.

Example highlight_manual :
  highlightCitations (js "See [manual.pdf#3] for details.") =
  js "See <span class=" ++ quoted (js "citation-highlight") ++
  js ">[manual.pdf#3]</span> for details.".
Proof. vm_compute. reflexivity. Qed.

Section HighlightKeepsCitations.

Implicit Types (s t u v rest text pre tail : str) (ms : list (str * str * str)).

Lemma marker_at_head c s : marker_at (c :: s) → c = LBRACKET.
Proof. intros (fn & ds & rest & _ & Heq). by injection Heq. Qed.

(** Whether a marker begins a text is settled by the text up to its first
    closing bracket. *)
Lemma marker_at_prefix u v v' :
  RBRACKET ∉ u → marker_at (u ++ RBRACKET :: v) → marker_at (u ++ RBRACKET :: v').
Proof.
  intros Hu (fn & ds & rest & Hwf & Heq).
  rewrite marker_text_app in Heq.
  change (LBRACKET :: fn ++ HASH :: ds ++ RBRACKET :: rest)
    with ((LBRACKET :: fn) ++ HASH :: ds ++ RBRACKET :: rest) in Heq.
  replace ((LBRACKET :: fn) ++ HASH :: ds ++ RBRACKET :: rest)
    with (((LBRACKET :: fn) ++ HASH :: ds) ++ RBRACKET :: rest) in Heq
    by (by rewrite <- app_assoc).
  destruct Hwf as (Hfn & Hno & Hds & Hdig).
  apply app_cons_first_unique in Heq as [-> _]; [|done|].
  - exists fn, ds, v'. split; [done|].
    rewrite marker_text_app. cbn [app]. by rewrite <- app_assoc.
  - pose proof (digits_no RBRACKET ds digit_not_rbracket Hdig).
    rewrite elem_of_app, !elem_of_cons. intros [[?|?]|[?|?]]; done.
Qed.

Lemma marker_free_app t u tail :
  marker_free t (u ++ tail) → marker_free u tail → marker_free (t ++ u) tail.
Proof.
  intros Ht Hu i Hi. rewrite <- app_assoc.
  destruct (decide (i < length t)) as [Hlt|Hge]; [by apply Ht|].
  rewrite drop_app_ge by lia. apply Hu.
  rewrite length_app in Hi. lia.
Qed.

Lemma marker_free_no_bracket t tail : LBRACKET ∉ t → marker_free t tail.
Proof.
  intros Ht i Hi Hm. rewrite drop_app_le in Hm by lia.
  destruct (drop i t) as [|c s] eqn:Hd.
  - apply (f_equal length) in Hd. rewrite length_drop in Hd. cbn in Hd. lia.
  - cbn [app] in Hm. apply marker_at_head in Hm as ->.
    apply Ht. rewrite <- (take_drop i t), Hd, elem_of_app. right. by left.
Qed.

(** No marker begins in the text before a marker and runs into a tag put
    in front of that marker. *)
Lemma marker_free_across t fn ds rest pre tail :
  well_formed fn ds → RBRACKET ∉ pre →
  marker_free t (marker_text fn ds ++ rest) →
  marker_free t (pre ++ marker_text fn ds ++ tail).
Proof.
  intros Hwf Hpre Hfree i Hi Hm. specialize (Hfree i Hi).
  rewrite drop_app_le in Hm, Hfree by lia.
  destruct (decide (RBRACKET ∈ drop i t)) as [Hin|Hnin].
  - apply list_elem_of_split_l in Hin as (u & v & Heq & Hu).
    rewrite Heq, <- app_assoc in Hm, Hfree. cbn [app] in Hm, Hfree.
    apply Hfree. by eapply marker_at_prefix.
  - destruct (drop i t) as [|c x] eqn:Hd.
    { apply (f_equal length) in Hd. rewrite length_drop in Hd. cbn in Hd. lia. }
    cbn [app] in Hm. apply marker_at_head in Hm as ->.
    apply Hfree. exists (x ++ LBRACKET :: fn), ds, rest.
    destruct Hwf as (Hfn & Hno & Hds & Hdig). split.
    + split_and!; [by destruct x| |done|done].
      rewrite elem_of_app, elem_of_cons. intros [?|[?|?]]; [|done|done].
      apply Hnin. by right.
      
    + rewrite !marker_text_app. cbn [app]. by rewrite <- app_assoc.
Qed.

Lemma highlighted_Segmented text t0 ms pre :
  Segmented text t0 ms → LBRACKET ∉ pre →
  ∃ t0' ms', Segmented (pre ++ highlighted t0 ms) t0' ms' ∧
    (λ m, marker_text m.1.1 m.1.2) <$> ms' =
    (λ m, marker_text m.1.1 m.1.2) <$> ms.
Proof.
  intros Hseg. revert pre.
  induction Hseg as [t Hfree|t fn ds rest t1 ms Hwf Hfree Hseg IH];
    intros pre Hpre.
  - exists (pre ++ t), []. split; [|done].
    cbn [highlighted]. rewrite app_nil_r. constructor.
    apply marker_free_app; [by apply marker_free_no_bracket|done].
  - destruct (IH closeTag) as (t1' & ms' & Hseg' & Hms).
    { compute_done. }
    exists (pre ++ t ++ openTag), ((fn, ds, t1') :: ms'). split.
    + cbn [highlighted].
      replace (pre ++ t ++ openTag ++ marker_text fn ds ++ closeTag ++
               highlighted t1 ms)
        with ((pre ++ t ++ openTag) ++ marker_text fn ds ++
              closeTag ++ highlighted t1 ms)
        by (by rewrite <- !app_assoc).
      constructor; [done| |done].
      apply marker_free_app; [by apply marker_free_no_bracket|].
      apply marker_free_app.
      * eapply marker_free_across; [done|compute_done|exact Hfree].
      * apply marker_free_no_bracket. compute_done.
    + cbn [fmap list_fmap]. cbn [fmap list_fmap] in Hms. by rewrite Hms.
Qed.

End HighlightKeepsCitations.

(** X4. Highlighting does not change the citations of a text:
    [extractCitations] finds in the highlighted text the markers it finds
    in the text, in the same order. *)
Theorem extractCitations_highlightCitations (text : str) :
  extractCitations (highlightCitations text) = extractCitations text.
Proof.
  destruct (Segmented_total text) as (t0 & ms & Hseg).
  rewrite (highlightCitations_Segmented _ _ _ Hseg).
  destruct (highlighted_Segmented text t0 ms [] Hseg) as (t0' & ms' & Hseg' & Hms).
  { apply not_elem_of_nil. }
  cbn [app] in Hseg'.
  rewrite (extractCitations_Segmented _ _ _ Hseg').
  rewrite (extractCitations_Segmented _ _ _ Hseg). done.
Qed.

(** ** [isValidEmail] *)

Section Email.

Import Anchored.

Implicit Types (s a b c mid : str) (p : char → bool) (r : list term).

Lemma test_many p r s : test (Many p :: r) s = many p r s.
Proof.
  cbn [test]. induction s as [|x s IH]; [done|].
  cbn [many]. by rewrite <- IH.
Qed.

Lemma test_one p r x s : test (One p :: r) (x :: s) = p x && test r s.
Proof. done. Qed.

(** A greedy [+] followed by [r] accepts the texts that split into a
    non-empty stretch of the class and a text [r] accepts. *)
Lemma many_spec p r s :
  many p r s = true ↔
  ∃ cap mid, s = cap ++ mid ∧ cap ≠ [] ∧
             Forall (λ x, p x = true) cap ∧ test r mid = true.
Proof.
  induction s as [|x s IH].
  - split; [done|]. intros (cap & mid & Heq & Hne & _).
    by destruct cap.
  - cbn [many]. rewrite andb_true_iff, orb_true_iff, IH. split.
    + intros [Hx [(cap & mid & -> & Hne & Hall & Ht)|Ht]].
      * exists (x :: cap), mid. split_and!; [done|done| |done].
        by constructor.
      * exists [x], s. split_and!; [done|done| |done]. by repeat constructor.
    + intros (cap & mid & Heq & Hne & Hall & Ht).
      destruct cap as [|y cap]; [done|]. injection Heq as <- ->.
      inversion Hall as [|?? Hy Hall']; subst. split; [done|].
      destruct cap as [|z cap]; [by right|]. left.
      exists (z :: cap), mid. by split_and!.
Qed.

End Email.

(** X5. [isValidEmail] accepts exactly the texts [a@b.c] where [a], [b]
    and [c] are not empty and hold neither white space nor [@]; so an
    accepted text has a single [@] and no white space. *)
Theorem isValidEmail_spec (email : str) :
  isValidEmail email = true ↔
  ∃ a b c,
    email = a ++ [AT] ++ b ++ [DOT] ++ c ∧
    a ≠ [] ∧ b ≠ [] ∧ c ≠ [] ∧
    Forall (λ x, isWhiteSpace x = false ∧ x ≠ AT) (a ++ b ++ c).
Proof.
  assert (Hclass : ∀ l,
    Forall (λ x, email_char x = true) l ↔
    Forall (λ x, isWhiteSpace x = false ∧ x ≠ AT) l).
  { intros l. apply Forall_iff. intros x. unfold email_char.
    rewrite andb_true_iff, !negb_true_iff, N.eqb_neq. done. }
  unfold isValidEmail, emailRegex. rewrite test_many, many_spec. split.
  - intros (a & mid & -> & Ha & Halla & Ht).
    destruct mid as [|x mid]; [done|]. rewrite test_one in Ht.
    apply andb_true_iff in Ht as [->%N.eqb_eq Ht].
    rewrite test_many in Ht.
    apply many_spec in Ht as (b & mid' & -> & Hb & Hallb & Ht).
    destruct mid' as [|x mid']; [done|]. rewrite test_one in Ht.
    apply andb_true_iff in Ht as [->%N.eqb_eq Ht].
    rewrite test_many in Ht.
    apply many_spec in Ht as (c & mid'' & -> & Hc & Hallc & Ht).
    destruct mid''; [|done]. rewrite app_nil_r.
    exists a, b, c. split_and!; try done.
    rewrite !Forall_app, <- !Hclass. done.
  - intros (a & b & c & -> & Ha & Hb & Hc & Hall).
    rewrite !Forall_app, <- !Hclass in Hall. destruct Hall as (Halla & Hallb & Hallc).
    exists a, ([AT] ++ b ++ [DOT] ++ c). split_and!; try done.
    cbn [app]. rewrite test_one, N.eqb_refl, test_many. cbn [andb].
    apply many_spec. exists b, ([DOT] ++ c). split_and!; try done.
    cbn [app]. rewrite test_one, N.eqb_refl, test_many. cbn [andb].
    apply many_spec. exists c, []. split_and!; try done.
    by rewrite app_nil_r.
Qed.

Example isValidEmail_examples :
  isValidEmail (js "ada@example.org") = true ∧
  isValidEmail (js "ada@mail.example.org") = true ∧
  isValidEmail (js "ada@example") = false ∧
  isValidEmail (js "ada lovelace@example.org") = false ∧
  isValidEmail (js "ada@@example.org") = false ∧
  isValidEmail (js "ada@.org") = false.
Proof. split_and!; reflexivity. Qed.

(** ** The tags on the wire *)

Section TagsOnTheWire.

Implicit Types (s t p : str) (sep : char) (pieces : list str).

Lemma split_on_join sep pieces :
  pieces ≠ [] → Forall (λ p, sep ∉ p) pieces →
  split_on sep (join [sep] pieces) = pieces.
Proof.
  unfold split_on. intros Hne Hall.
  induction Hall as [|p pieces Hp Hall IH]; [done|].
  destruct pieces as [|q pieces].
  - cbn [join]. by rewrite split_on_from_no_sep_all.
  - rewrite join_cons by done.
    rewrite split_on_from_cur by done. cbn [app split_on_from].
    rewrite N.eqb_refl, IH; done.
Qed.

Lemma elem_of_trimStart s x : x ∈ trimStart s → x ∈ s.
Proof.
  destruct (trimStart_suffix s) as (pre & Heq & _).
  intros Hx. rewrite Heq, elem_of_app. by right.
Qed.

Lemma elem_of_trim s x : x ∈ trim s → x ∈ s.
Proof.
  unfold trim, trimEnd. rewrite elem_of_reverse.
  intros Hx%elem_of_trimStart. rewrite elem_of_reverse in Hx.
  by apply elem_of_trimStart.
Qed.

Lemma trimStart_fixed s :
  (∀ c, head s = Some c → isWhiteSpace c = false) → trimStart s = s.
Proof.
  destruct s as [|c s]; [done|]. intros H. cbn [trimStart].
  by rewrite (H c eq_refl).
Qed.

(** A text that neither begins nor ends with white space is left as it is
    by [trim]. *)
Lemma trim_fixed s :
  (∀ c, head s = Some c ∨ last s = Some c → isWhiteSpace c = false) →
  trim s = s.
Proof.
  intros H. unfold trim, trimEnd.
  rewrite (trimStart_fixed s) by auto.
  rewrite (trimStart_fixed (reverse s)).
  - apply reverse_involutive.
  - intros c Hc. rewrite head_reverse in Hc. auto.
Qed.

Lemma parseTags_no_comma input :
  Forall (λ t, COMMA ∉ t) (parseTags input).
Proof.
  rewrite Forall_forall. intros t Ht. unfold parseTags in Ht.
  apply elem_of_List_filter in Ht as [Ht _].
  apply list_elem_of_fmap in Ht as (p & -> & Hp).
  pose proof (split_on_from_no_sep COMMA [] input (not_elem_of_nil _)) as Hall.
  rewrite Forall_forall in Hall. intros Hc%elem_of_trim.
  by apply (Hall p Hp).
Qed.

Lemma parseTags_trimmed input t :
  t ∈ parseTags input → t ≠ [] ∧ trim t = t.
Proof.
  unfold parseTags. intros [Ht Hlen]%elem_of_List_filter.
  apply list_elem_of_fmap in Ht as (p & -> & _). split.
  - intros Heq. by rewrite Heq in Hlen.
  - apply trim_fixed, trim_ends.
Qed.

End TagsOnTheWire.

(** X6. The tags of an upload survive the comma-joined form field: when
    there are tags, cutting the field at its commas gives back the tags,
    and parsing the field as a tag input gives them back too; the field
    is left out exactly when there is no tag. *)
Theorem tagsField_roundtrip (input : str) :
  match tagsField (parseTags input) with
  | Some field =>
      split_on COMMA field = parseTags input ∧
      parseTags field = parseTags input
  | None => parseTags input = []
  end.
Proof.
  unfold tagsField.
  destruct (parseTags input) as [|t ts] eqn:Htags; [done|].
  cbn [length Nat.ltb Nat.leb].
  assert (split_on COMMA (join [COMMA] (t :: ts)) = t :: ts) as Hsplit.
  { apply split_on_join; [done|]. rewrite <- Htags. apply parseTags_no_comma. }
  split; [done|].
  unfold parseTags at 1. rewrite Hsplit.
  assert (Hall : Forall (λ t, t ≠ [] ∧ trim t = t) (t :: ts)).
  { rewrite Forall_forall, <- Htags. apply parseTags_trimmed. }
  clear Htags Hsplit. induction Hall as [|x l [Hx Hfix] Hall IH]; [done|].
  cbn [fmap list_fmap List.filter]. rewrite Hfix.
  destruct x; [done|]. cbn [length Nat.ltb Nat.leb]. f_equal. apply IH.
Qed.

(** ** The tag selector *)

Section TagOrder.

Implicit Types (a b c : str).

Lemma str_leb_refl a : str_leb a a = true.
Proof.
  induction a as [|x a IH]; [done|]. cbn.
  by rewrite N.eqb_refl, IH, orb_true_r.
Qed.

Global Instance str_le_total : Total str_le.
Proof.
  intros a. unfold str_le. induction a as [|x a IH]; intros [|y b]; cbn; auto.
  destruct (N.lt_trichotomy x y) as [Hlt|[->|Hgt]].
  - left. by rewrite (proj2 (N.ltb_lt _ _) Hlt).
  - rewrite N.eqb_refl, N.ltb_irrefl. cbn. apply IH.
  - right. by rewrite (proj2 (N.ltb_lt _ _) Hgt).
Qed.

Global Instance str_le_trans : Transitive str_le.
Proof.
  intros a. unfold str_le. induction a as [|x a IH]; intros [|y b] [|z c];
    cbn; try done.
  rewrite !orb_true_iff, !andb_true_iff, !N.ltb_lt, !N.eqb_eq.
  intros [Hxy|[-> Hab]] [Hyz|[-> Hbc]].
  - left. lia.
  - by left.
  - by left.
  - right. split; [done|]. by eapply IH.
Qed.

Global Instance str_le_antisym : AntiSymm (=) str_le.
Proof.
  intros a. unfold str_le. induction a as [|x a IH]; intros [|y b];
    cbn; try done.
  rewrite !orb_true_iff, !andb_true_iff, !N.ltb_lt, !N.eqb_eq.
  intros [Hxy|[-> Hab]] [Hyx|[Heq Hba]]; try lia.
  f_equal. by apply IH.
Qed.

End TagOrder.

(** X7. The tag selector offers the tags of the documents, and only
    those, each once and in the order of their code units. *)
Theorem getAllTags_sorted_spec (st : Docs.State) :
  (∀ t, t ∈ getAllTags_sorted st ↔
        ∃ doc, doc ∈ Docs.documents st ∧ t ∈ tags doc) ∧
  NoDup (getAllTags_sorted st) ∧
  Sorted.StronglySorted str_le (getAllTags_sorted st).
Proof.
  unfold getAllTags_sorted. split_and!.
  - intros t. rewrite sorting.merge_sort_Permutation, elem_of_remove_dups.
    unfold Docs.getAllTags. rewrite list_elem_of_In, in_concat.
    setoid_rewrite <- list_elem_of_In. split.
    + intros (l & (doc & -> & Hdoc)%list_elem_of_fmap & Ht). eauto.
    + intros (doc & Hdoc & Ht). exists (tags doc). split; [|done].
      apply list_elem_of_fmap. eauto.
  - rewrite sorting.merge_sort_Permutation. apply NoDup_remove_dups.
  - apply sorting.Sorted_StronglySorted; [apply _|].
    apply sorting.Sorted_merge_sort. apply _.
Qed.

Example getAllTags_sorted_example :
  getAllTags_sorted
    {| Docs.documents :=
         [ notes_md; report_pdf;
           {| doc_id := js "d3"; filename := js "plan.txt"; size := 1%Q;
              mime_type := js "text/plain"; uploaded_at := [];
              chunks := 1%Q; tags := [js "q3"; js "Draft"; js "q"] |} ];
       Docs.filteredDocuments := []; Docs.loading := false;
       Docs.error := None; Docs.searchQuery := []; Docs.selectedTag := [];
       Docs.deleteConfirm := None |}
  = [js "Draft"; js "draft"; js "q"; js "q3"].
Proof. vm_compute. reflexivity. Qed.

(** ** The table of sources *)

Section SourcesTable.

Import Chat.

Implicit Types (w : World) (st : State) (msgs held : list ChatMessage)
  (table : gmap str (list SourceCitation)).

Lemma uint_digits_inj d1 d2 : uint_digits d1 = uint_digits d2 → d1 = d2.
Proof.
  revert d2. induction d1 as [|d1 IH|d1 IH|d1 IH|d1 IH|d1 IH|d1 IH|d1 IH|d1 IH
                              |d1 IH|d1 IH];
    intros [|d2|d2|d2|d2|d2|d2|d2|d2|d2|d2]; cbn; intros H;
    try discriminate H; try done; injection H as H; f_equal; by apply IH.
Qed.

Lemma Number_toString_inj n m : Number_toString n = Number_toString m → n = m.
Proof.
  unfold Number_toString. intros H%uint_digits_inj.
  rewrite <- (DecimalNat.Unsigned.of_to n), <- (DecimalNat.Unsigned.of_to m).
  by rewrite H.
Qed.

(** Different positions have different keys. *)
Lemma messageId_inj i j : messageId i = messageId j → i = j.
Proof.
  unfold messageId. intros H%app_inv_head. by apply Number_toString_inj.
Qed.

Lemma entries_valid_app table msgs more :
  entries_valid table msgs → entries_valid table (msgs ++ more).
Proof.
  intros H key l Hl. destruct (H key l Hl) as (Hne & k & m & -> & Hk & Hm).
  split; [done|]. exists k, m. split_and!; [done| |done].
  by apply lookup_app_l_Some.
Qed.

Lemma entries_valid_resume held settled cur :
  entries_valid (sourcesTable cur) (messages cur) →
  entries_valid (sourcesTable cur) held →
  entries_valid
    (sourcesTable (handleSubmit_resume held settled cur).1)
    (messages (handleSubmit_resume held settled cur).1).
Proof.
  intros Hcur Hheld. destruct settled as [e|response].
  - rewrite handleSubmit_resume_failure. cbn. by apply entries_valid_app.
  - rewrite handleSubmit_resume_success. cbn [fst messages sourcesTable].
    destruct (sources response) as [|c l] eqn:Hs; cbn [length Nat.ltb Nat.leb].
    { by apply entries_valid_app. }
    intros key l' Hl'. rewrite lookup_insert in Hl'.
    destruct (decide (messageId (length held) = key)) as [<-|Hne].
    + injection Hl' as <-. split; [done|].
      exists (length held), (assistantMessage response).
      split_and!; [done| |done].
      rewrite lookup_app_r by lia. by rewrite Nat.sub_diag.
    + by apply (entries_valid_app _ _ _ Hheld).
Qed.

Lemma reachable_entries_valid w :
  reachable w →
  entries_valid (sourcesTable (ui w)) (messages (ui w)) ∧
  ∀ p, p ∈ inflight w → entries_valid (sourcesTable (ui w)) (held_messages p).
Proof.
  induction 1 as [|w ev Hw [IHui IHheld]].
  { split; [|by intros p ?%elem_of_nil]. intros key l Hl.
    unfold start, initial in Hl. cbn [ui sourcesTable] in Hl.
    by rewrite lookup_empty in Hl. }
  pose proof (reachable_inflight w Hw) as Hone.
  destruct ev as [|s| | |i settled]; cbn [step].
  - unfold handleSubmit_start.
    destruct (negb _ || _); [done|]. cbn. split.
    + by apply entries_valid_app.
    + intros p [Hp| ->%list_elem_of_singleton]%elem_of_app; [by apply IHheld|].
      cbn. by apply entries_valid_app.
  - done.
  - done.
  - unfold clearChat, bind, setMessages, setSources.
    cbn [ui fst sourcesTable].
    split; [|intros p _]; intros key l Hl; by rewrite lookup_empty in Hl.
  - destruct (inflight w !! i) as [p|] eqn:Hp; [|by split]. cbn [ui inflight].
    split.
    + apply entries_valid_resume; [done|].
      apply IHheld. by eapply list_elem_of_lookup_2.
    + assert (delete i (inflight w) = []) as ->; [|by intros q ?%elem_of_nil].
      apply lookup_lt_Some in Hp as Hlt.
      destruct (isLoading (ui w)); [|lia].
      destruct (inflight w) as [|q [|q' l]]; cbn in Hone; try lia.
      destruct i; [done|cbn in Hlt; lia].
Qed.

End SourcesTable.

(** X8. In every state the chat can reach, the sources the transcript
    shows under a position are not empty and the message at that position
    exists and is one of the assistant; and the table of sources has no
    other entries than those. *)
Theorem sources_belong_to_assistant_messages (w : Chat.World) :
  Chat.reachable w →
  (∀ index l, Chat.sourcesOf (Chat.ui w) index = Some l →
     l ≠ [] ∧
     ∃ m, Chat.messages (Chat.ui w) !! index = Some m ∧ role m = assistant) ∧
  (∀ key l, Chat.sourcesTable (Chat.ui w) !! key = Some l →
     ∃ index, key = Chat.messageId index).
Proof.
  intros Hw. destruct (reachable_entries_valid w Hw) as [Hui _]. split.
  - intros index l Hl. destruct (Hui _ _ Hl) as (Hne & k & m & Hk & Hm & Hr).
    apply messageId_inj in Hk as <-. eauto.
  - intros key l Hl. destruct (Hui _ _ Hl) as (_ & k & _ & -> & _). eauto.
Qed.

(** The sources of the answered question. *)
Lemma sources_belong_to_assistant_messages_witness :
  Chat.reachable answered ∧
  Chat.sourcesOf (Chat.ui answered) 1 = Some (sources manual_response) ∧
  ∃ m, Chat.messages (Chat.ui answered) !! 1 = Some m ∧ role m = assistant.
Proof.
  assert (Chat.reachable answered) as Hw.
  { apply Chat.reachable_step, Chat.reachable_step, Chat.reachable_step,
      Chat.reachable_start. }
  assert (Chat.sourcesOf (Chat.ui answered) 1 = Some (sources manual_response))
    as Hsrc.
  { unfold answered, waiting. cbn [Chat.step]. vm_compute. reflexivity. }
  split; [exact Hw|]. split; [exact Hsrc|].
  destruct (sources_belong_to_assistant_messages answered Hw) as [H _].
  exact (proj2 (H 1 _ Hsrc)).
Defined.

(** ** The requests of the chat *)

Section Requests.

Import Chat.

Implicit Types (w : World) (st : State).

Lemma trim_idempotent (s : str) : trim (trim s) = trim s.
Proof. apply trim_fixed, trim_ends. Qed.

Lemma reachable_well_posed w :
  reachable w → Forall well_posed (inflight w).
Proof.
  induction 1 as [|w ev Hw IH]; [by constructor|].
  destruct ev as [|s| | |i settled]; cbn [step]; try done.
  - unfold handleSubmit_start.
    destruct (truthy (trim (input (ui w)))) eqn:Hin; cbn [negb orb]; [|done].
    destruct (isLoading (ui w)); [done|]. cbn [inflight].
    apply Forall_app. split; [done|]. repeat constructor; cbn.
    exists (messages (ui w)), (trim (input (ui w))).
    split_and!; [done| |apply trim_idempotent].
    intros Heq. by rewrite Heq in Hin.
  - destruct (inflight w !! i) as [p|]; [|done]. cbn [inflight].
    by apply Forall_delete.
Qed.

End Requests.

(** X9. Every request the chat has in flight is as [handleSubmit] posts
    them: it does not ask for a stream, and it carries the transcript of
    the time of the submission, whose last message is the user's and is
    neither empty nor surrounded by white space. *)
Theorem requests_well_posed (w : Chat.World) (p : Chat.Pending) :
  Chat.reachable w → p ∈ Chat.inflight w → well_posed p.
Proof.
  intros Hw Hp. pose proof (reachable_well_posed w Hw) as Hall.
  rewrite Forall_forall in Hall. by apply Hall.
Qed.

(** The question on its way. *)
Lemma requests_well_posed_witness :
  Chat.reachable waiting ∧
  {| Chat.held_messages :=
       [{| role := user; content := js "Where is it described?" |}];
     Chat.posted :=
       {| req_messages :=
            [{| role := user; content := js "Where is it described?" |}];
          req_stream := false; req_rag_only := true |} |}
    ∈ Chat.inflight waiting ∧
  well_posed
    {| Chat.held_messages :=
         [{| role := user; content := js "Where is it described?" |}];
       Chat.posted :=
         {| req_messages :=
              [{| role := user; content := js "Where is it described?" |}];
            req_stream := false; req_rag_only := true |} |}.
Proof.
  assert (Chat.reachable waiting) as Hw.
  { apply Chat.reachable_step, Chat.reachable_step, Chat.reachable_start. }
  assert ({| Chat.held_messages :=
       [{| role := user; content := js "Where is it described?" |}];
     Chat.posted :=
       {| req_messages :=
            [{| role := user; content := js "Where is it described?" |}];
          req_stream := false; req_rag_only := true |} |}
    ∈ Chat.inflight waiting) as Hp.
  { apply list_elem_of_singleton. reflexivity. }
  split; [exact Hw|]. split; [exact Hp|].
  exact (requests_well_posed waiting _ Hw Hp).
Defined.

(** X10. Clearing the transcript while a request is in flight does not
    cancel it: when the request succeeds, the transcript of the time of
    the submission comes back with the answer appended; when it fails, the
    transcript holds the apology alone.  In both cases the component stops
    loading and nothing is left in flight. *)
Theorem clear_while_waiting (w : Chat.World) (p : Chat.Pending)
    (settled : thrown + ChatResponse) :
  Chat.inflight w = [p] →
  Chat.inflight (Chat.step (Chat.step w Chat.Clear) (Chat.Settle 0 settled)) = [] ∧
  Chat.isLoading
    (Chat.ui (Chat.step (Chat.step w Chat.Clear) (Chat.Settle 0 settled))) = false ∧
  Chat.messages
    (Chat.ui (Chat.step (Chat.step w Chat.Clear) (Chat.Settle 0 settled))) =
  match settled with
  | inr response => Chat.held_messages p ++ [Chat.assistantMessage response]
  | inl e => [Chat.errorMessage (handleApiError e)]
  end.
Proof.
  intros Hp. cbn [Chat.step Chat.inflight]. rewrite Hp. cbn [lookup list_lookup].
  cbn [Chat.ui Chat.inflight]. split; [done|].
  rewrite handleSubmit_resume_not_loading. split; [done|].
  destruct settled as [e|response].
  - by rewrite handleSubmit_resume_failure.
  - by rewrite handleSubmit_resume_success.
Qed.

(** The question cleared away, then answered. *)
Lemma clear_while_waiting_witness :
  Chat.inflight waiting =
    [{| Chat.held_messages :=
          [{| role := user; content := js "Where is it described?" |}];
        Chat.posted :=
          {| req_messages :=
               [{| role := user; content := js "Where is it described?" |}];
             req_stream := false; req_rag_only := true |} |}] ∧
  Chat.messages
    (Chat.ui (Chat.step (Chat.step waiting Chat.Clear)
                        (Chat.Settle 0 (inr manual_response)))) =
  [ {| role := user; content := js "Where is it described?" |};
    {| role := assistant; content := js "See [manual.pdf#3] for details." |} ].
Proof.
  split; [reflexivity|].
  exact (proj2 (proj2 (clear_while_waiting waiting _ (inr manual_response)
                         eq_refl))).
Defined.

(** ** The document list at rest *)

Section DocsAtRest.

Import Docs.

Variable toLowerCase : str → str.

Implicit Types (w : World) (st : State).

Lemma effect_current st w0 :
  last_is_current (effect st w0) ∧
  filtered_is_current toLowerCase (effect st w0).
Proof.
  split.
  - intros c. cbn. rewrite last_snoc. by intros [= <-].
  - intros H. cbn in H. by apply app_eq_nil in H as [_ ?].
Qed.

Lemma reachable_current w :
  reachable toLowerCase w →
  last_is_current w ∧ filtered_is_current toLowerCase w.
Proof.
  induction 1 as [|w ev Hw [IHlast IHrest]].
  { apply effect_current. }
  destruct ev as [|[err|items]|q|t|d| | |i [err|[]]|]; cbn [step].
  - by split.
  - destruct (loads w); by split.
  - destruct (loads w); [by split|apply effect_current].
  - destruct (_ || _); [by split|apply effect_current].
  - destruct (_ || _); [by split|apply effect_current].
  - destruct (_ && _); by split.
  - destruct (interactive _); by split.
  - destruct (deleteConfirm _) as [d|]; [|by split].
    destruct (_ && _); by split.
  - destruct (deletes w !! i); by split.
  - destruct (deletes w !! i); [apply effect_current|by split].
  - destruct (timers w) as [|c pending] eqn:Ht.
    { split; [intros c; by rewrite Ht|intros _; by apply IHrest]. }
    unfold last_is_current in IHlast. rewrite Ht in IHlast.
    split.
    + intros c' Hc'. cbn in Hc'. cbn [ui documents selectedTag searchQuery].
      apply IHlast. by rewrite last_cons, Hc'.
    + intros Hp. cbn in Hp. subst pending. cbn.
      by destruct (IHlast c eq_refl) as (-> & -> & ->).
Qed.

End DocsAtRest.

(** X11. Once every debounced call has run, the list shown is the
    documents filtered by the query and the tag as they are: it is part
    of the full list, and holds no document that a deletion removed. *)
Theorem filtered_at_rest (toLowerCase : str → str) (w : Docs.World) :
  Docs.reachable toLowerCase w → Docs.timers w = [] →
  Docs.filteredDocuments (Docs.ui w) =
    Docs.filterDocuments toLowerCase (Docs.documents (Docs.ui w))
      (Docs.searchQuery (Docs.ui w)) (Docs.selectedTag (Docs.ui w)) ∧
  Docs.filteredDocuments (Docs.ui w) ⊆ Docs.documents (Docs.ui w).
Proof.
  intros Hw Ht. destruct (reachable_current toLowerCase w Hw) as [_ Hrest].
  rewrite (Hrest Ht). split; [done|]. apply filterDocuments_subseteq.
Qed.

(** The list loaded, both debounced calls run. *)
Lemma filtered_at_rest_witness :
  Docs.reachable asciiLowerCase (Docs.run asciiLowerCase at_rest) ∧
  Docs.timers (Docs.run asciiLowerCase at_rest) = [] ∧
  Docs.filteredDocuments (Docs.ui (Docs.run asciiLowerCase at_rest))
    ⊆ Docs.documents (Docs.ui (Docs.run asciiLowerCase at_rest)).
Proof.
  assert (Docs.reachable asciiLowerCase (Docs.run asciiLowerCase at_rest))
    as Hw by apply reachable_run.
  split; [exact Hw|]. split; [reflexivity|].
  exact (proj2 (filtered_at_rest asciiLowerCase _ Hw eq_refl)).
Defined.

(** ** The stream and its chunks *)

Section Chunks.

Import Stream.

Variable JSON_parse : str → option json.

Lemma complete_lines_tail (body tail : str) :
  LF ∉ tail → complete_lines (body ++ tail) = complete_lines body.
Proof.
  intros Htail. unfold complete_lines, split_on.
  rewrite split_on_from_app.
  rewrite (split_on_from_no_sep_all LF _ tail) by done.
  rewrite removelast_app by done. cbn. by rewrite app_nil_r.
Qed.

End Chunks.

(** X12. What [streamChat] yields, warns about and ends with depends on
    the text of the body only, not on how the network cut it into
    chunks. *)
Theorem streamChat_chunking
    (JSON_parse : str → option Stream.json)
    (chunks chunks' : list str) (ending : option thrown) :
  concat chunks = concat chunks' →
  Stream.streamChat JSON_parse (inr (chunks, ending)) =
  Stream.streamChat JSON_parse (inr (chunks', ending)).
Proof.
  intros Heq. unfold Stream.streamChat.
  rewrite !read_loop_spec by apply not_elem_of_nil.
  cbn [app]. by rewrite Heq.
Qed.

(** One event arriving in two pieces, or with the next one. *)
Lemma streamChat_chunking_witness :
  concat [js "data: [DO"; js "NE]" ++ [Stream.LF]] =
    concat [js "data: [DONE]" ++ [Stream.LF]] ∧
  Stream.streamChat parse_token_object
    (inr ([js "data: [DO"; js "NE]" ++ [Stream.LF]], None)) =
  Stream.streamChat parse_token_object
    (inr ([js "data: [DONE]" ++ [Stream.LF]], None)).
Proof.
  split; [reflexivity|].
  exact (streamChat_chunking parse_token_object _ _ None eq_refl).
Defined.

(** X13. What follows the last line feed of the body is never worked
    through: a last event without a line feed after it, be it a token or
    the terminal event, is lost. *)
Theorem streamChat_unterminated_tail
    (JSON_parse : str → option Stream.json)
    (chunks : list str) (tail : str) (ending : option thrown) :
  Stream.LF ∉ tail →
  Stream.streamChat JSON_parse (inr (chunks ++ [tail], ending)) =
  Stream.streamChat JSON_parse (inr (chunks, ending)).
Proof.
  intros Htail. unfold Stream.streamChat.
  rewrite !read_loop_spec by apply not_elem_of_nil.
  cbn [app]. rewrite concat_app. cbn [concat]. rewrite app_nil_r.
  by rewrite complete_lines_tail.
Qed.

(** A token sent without a line feed after it. *)
Lemma streamChat_unterminated_tail_witness :
  (Stream.LF ∉ lost_token_line) ∧
  Stream.streamChat parse_token_object (inr ([] ++ [lost_token_line], None)) =
  (Stream.nothing, Stream.Returns).
Proof.
  assert (Stream.LF ∉ lost_token_line) as Htail by compute_done.
  split; [exact Htail|].
  exact (eq_trans
    (streamChat_unterminated_tail parse_token_object [] _ None Htail) eq_refl).
Defined.

(** ** The theme *)

#[local] Set Warnings "-clear-no-such-hyp".

Section ThemeFacts.

Import Theme.

Implicit Types (b : Browser) (theme : str).

Lemma theme_names_differ : LIGHT ≠ DARK ∧ LIGHT ≠ SYSTEM ∧ DARK ≠ SYSTEM.
Proof. split_and!; compute_done. Qed.

Lemma applyTheme_dark theme b :
  theme = LIGHT ∨ theme = DARK ∨ theme = SYSTEM →
  (DARK ∈ classList (applyTheme theme b) ↔
   theme = DARK ∨ (theme = SYSTEM ∧ prefersDark b = true)) ∧
  (LIGHT ∈ classList (applyTheme theme b) ↔
   theme = LIGHT ∨ (theme = SYSTEM ∧ prefersDark b = false)).
Proof.
  destruct theme_names_differ as (Hld & Hls & Hds).
  unfold applyTheme. cbn [classList].
  intros [-> | [-> | ->]].
  - rewrite bool_decide_eq_false_2 by done. set_solver.
  - rewrite bool_decide_eq_false_2 by done. set_solver.
  - rewrite bool_decide_eq_true_2 by done.
    destruct (prefersDark b); set_solver.
Qed.

End ThemeFacts.

(** X14. After the effect of the theme has run for one of the themes
    [light], [dark] and [system], the root element has exactly one of the
    classes [light] and [dark]: the one of the theme, or for [system] the
    one the browser prefers; its other classes are as they were. *)
Theorem applyTheme_classes (theme : str) (b : Theme.Browser) :
  theme = Theme.LIGHT ∨ theme = Theme.DARK ∨ theme = Theme.SYSTEM →
  (Theme.DARK ∈ Theme.classList (Theme.applyTheme theme b) ↔
   theme = Theme.DARK ∨ (theme = Theme.SYSTEM ∧ Theme.prefersDark b = true)) ∧
  (Theme.DARK ∈ Theme.classList (Theme.applyTheme theme b) ↔
   Theme.LIGHT ∉ Theme.classList (Theme.applyTheme theme b)) ∧
  (∀ c, c ≠ Theme.LIGHT → c ≠ Theme.DARK →
        c ∈ Theme.classList (Theme.applyTheme theme b) ↔
        c ∈ Theme.classList b).
Proof.
  intros Hth. destruct (applyTheme_dark theme b Hth) as [Hd Hl].
  destruct theme_names_differ as (Hld & Hls & Hds).
  split_and!.
  - done.
  - rewrite Hd, Hl. destruct (Theme.prefersDark b);
      destruct Hth as [-> | [-> | ->]]; intuition congruence.
  - intros c Hcl Hcd. unfold Theme.applyTheme. cbn [Theme.classList].
    destruct Hth as [-> | [-> | ->]].
    + rewrite bool_decide_eq_false_2 by done. set_solver.
    + rewrite bool_decide_eq_false_2 by done. set_solver.
    + rewrite bool_decide_eq_true_2 by done.
      destruct (Theme.prefersDark b); set_solver.
Qed.

(** The system theme on a browser that prefers dark. *)
Lemma applyTheme_classes_witness :
  (Theme.SYSTEM = Theme.LIGHT ∨ Theme.SYSTEM = Theme.DARK ∨
   Theme.SYSTEM = Theme.SYSTEM) ∧
  Theme.DARK ∈ Theme.classList
    (Theme.applyTheme Theme.SYSTEM
       {| Theme.localStorage := ∅; Theme.prefersDark := true;
          Theme.classList := {[ Theme.LIGHT ]} |}).
Proof.
  assert (Theme.SYSTEM = Theme.LIGHT ∨ Theme.SYSTEM = Theme.DARK ∨
          Theme.SYSTEM = Theme.SYSTEM) as Hth by (right; right; reflexivity).
  split; [exact Hth|].
  apply (proj1 (applyTheme_classes Theme.SYSTEM _ Hth)).
  right. split; reflexivity.
Defined.

(** X15. The theme toggle never asks for [system]: it asks for [light]
    when the theme is [dark] and for [dark] otherwise; the theme it sets is
    the one a reload starts with, and the class of the root element is the
    one of that theme.  So with the theme [system] on a browser that
    prefers dark, the first click leaves the page dark. *)
Theorem toggleTheme_spec (storageKey defaultTheme theme : str)
    (b : Theme.Browser) :
  (Theme.toggled theme = Theme.LIGHT ∨ Theme.toggled theme = Theme.DARK) ∧
  (Theme.toggled theme = Theme.LIGHT ↔ theme = Theme.DARK) ∧
  Theme.initialTheme storageKey defaultTheme
    (Theme.setTheme storageKey (Theme.toggled theme) b)
    = Theme.toggled theme ∧
  (Theme.DARK ∈ Theme.classList
     (Theme.setTheme storageKey (Theme.toggled theme) b) ↔
   theme ≠ Theme.DARK) ∧
  (theme = Theme.SYSTEM → Theme.prefersDark b = true →
   Theme.classList
     (Theme.setTheme storageKey (Theme.toggled theme)
        (Theme.applyTheme theme b))
   = Theme.classList (Theme.applyTheme theme b)).
Proof.
  destruct theme_names_differ as (Hld & Hls & Hds).
  assert (Htog : Theme.toggled theme = Theme.LIGHT ∧ theme = Theme.DARK ∨
                 Theme.toggled theme = Theme.DARK ∧ theme ≠ Theme.DARK).
  { unfold Theme.toggled. destruct (decide (theme = Theme.DARK)).
    - left. by rewrite bool_decide_eq_true_2.
    - right. by rewrite bool_decide_eq_false_2. }
  split_and!.
  - tauto.
  - destruct Htog as [[-> ->]|[-> ?]]; [tauto|]. split; [done|tauto].
  - unfold Theme.initialTheme, Theme.setTheme, Theme.applyTheme.
    cbn [Theme.localStorage]. rewrite lookup_insert_eq.
    by destruct Htog as [[-> _]|[-> _]].
  - unfold Theme.setTheme.
    destruct Htog as [[Ht ->]|[Ht Hne]]; rewrite Ht.
    + destruct (applyTheme_dark Theme.LIGHT
        {| Theme.localStorage := <[storageKey:=Theme.LIGHT]> (Theme.localStorage b);
           Theme.prefersDark := Theme.prefersDark b;
           Theme.classList := Theme.classList b |}) as [Hd _]; [auto|].
      rewrite Hd. intuition congruence.
    + destruct (applyTheme_dark Theme.DARK
        {| Theme.localStorage := <[storageKey:=Theme.DARK]> (Theme.localStorage b);
           Theme.prefersDark := Theme.prefersDark b;
           Theme.classList := Theme.classList b |}) as [Hd _]; [auto|].
      rewrite Hd. tauto.
  - intros -> Hpd. unfold Theme.toggled.
    rewrite bool_decide_eq_false_2 by done.
    unfold Theme.setTheme, Theme.applyTheme.
    cbn [Theme.classList Theme.prefersDark]. rewrite Hpd.
    rewrite (bool_decide_eq_true_2 (Theme.SYSTEM = Theme.SYSTEM)) by done.
    rewrite (bool_decide_eq_false_2 (Theme.DARK = Theme.SYSTEM)) by done.
    apply set_eq. intros c. set_solver.
Qed.

(** ** [debounce] and [throttle] *)

Section TimerFacts.

Import Timers.

Context {Args : Type}.

Implicit Types (evs : list (event Args)) (d : debounced Args)
  (t : throttled Args) (a : Args).

Lemma debounced_run d evs :
  made (foldl debounced_step d evs) =
  made d ++
  match scheduled d, evs with
  | Some a, Elapse :: _ => [a]
  | _, _ => []
  end ++ settled_calls evs.
Proof.
  revert d. induction evs as [|[a|] evs IH]; intros d; cbn [foldl].
  - destruct (scheduled d); cbn; by rewrite app_nil_r.
  - rewrite IH. cbn [debounced_step scheduled made].
    destruct (scheduled d), evs as [|[b|] evs]; cbn; done.
  - rewrite IH. cbn [debounced_step settled_calls].
    destruct (scheduled d) as [a|] eqn:Hd; cbn [scheduled made].
    + cbn. by rewrite <- app_assoc.
    + rewrite Hd. done.
Qed.

Lemma settled_calls_burst (burst : list Args) a :
  settled_calls ((Call <$> burst) ++ [Call a; Elapse]) = [a].
Proof.
  induction burst as [|b burst IH]; [done|].
  cbn [fmap list_fmap app settled_calls].
  destruct burst; cbn in *; done.
Qed.

Lemma elapses_Call a evs : elapses (Call a :: evs) = elapses evs.
Proof. done. Qed.

Lemma elapses_Elapse evs : elapses (@Elapse Args :: evs) = S (elapses evs).
Proof. done. Qed.

Lemma length_settled_calls evs : length (settled_calls evs) ≤ elapses evs.
Proof.
  induction evs as [evs IH] using (induction_ltof1 _ length).
  unfold ltof in IH.
  destruct evs as [|[a|] [|[b|] evs]];
    rewrite ?elapses_Call, ?elapses_Elapse; cbn [settled_calls length].
  - lia.
  - lia.
  - rewrite <- (elapses_Call b). apply (IH (Call b :: evs)). cbn. lia.
  - pose proof (IH evs ltac:(cbn; lia)) as H. lia.
  - lia.
  - pose proof (IH (Call b :: evs) ltac:(cbn; lia)) as H.
    rewrite elapses_Call in H. apply Nat.le_le_succ_r. exact H.
  - pose proof (IH (Elapse :: evs) ltac:(cbn; lia)) as H.
    rewrite elapses_Elapse in H. cbn [settled_calls] in H. lia.
Qed.

Lemma settled_calls_sublist evs : settled_calls evs `sublist_of` calls evs.
Proof.
  induction evs as [|[a|] evs IH].
  - done.
  - destruct evs as [|[b|] evs].
    + apply sublist_nil_l.
    + apply sublist_cons. exact IH.
    + apply sublist_skip. exact IH.
  - exact IH.
Qed.

Lemma throttled_run t evs :
  ∃ more,
    passed (foldl throttled_step t evs) = passed t ++ more ∧
    more `sublist_of` calls evs ∧
    length more ≤ (if inThrottle t then 0 else 1) + elapses evs ∧
    (inThrottle t = false → ∀ a rest, evs = Call a :: rest →
       ∃ more', more = a :: more').
Proof.
  revert t. induction evs as [|[a|] evs IH]; intros t; cbn [foldl];
    rewrite ?elapses_Call, ?elapses_Elapse.
  - exists []. rewrite app_nil_r. split_and!; [done|done|cbn; lia|done].
  - cbn [throttled_step]. destruct (inThrottle t) eqn:Ht.
    + destruct (IH t) as (more & Heq & Hsub & Hlen & _).
      exists more. rewrite Ht in Hlen.
      split_and!; [done|by apply sublist_cons|lia|done].
    + destruct (IH {| inThrottle := true; passed := passed t ++ [a] |})
        as (more & Heq & Hsub & Hlen & _).
      exists (a :: more). cbn [passed inThrottle] in *.
      split_and!.
      * by rewrite Heq, <- app_assoc.
      * by apply sublist_skip.
      * cbn [length]. lia.
      * intros _ a' rest [= <- <-]. eauto.
  - cbn [throttled_step].
    destruct (IH {| inThrottle := false; passed := passed t |})
      as (more & Heq & Hsub & Hlen & _).
    exists more. cbn [passed inThrottle] in *.
    split_and!; [done|done| |done].
    destruct (inThrottle t); lia.
Qed.

End TimerFacts.

(** X16. Whatever the calls and the delays elapsing, a function made by
    [debounce] passes on exactly the calls that no other call followed
    before the delay elapsed, in order: at most one call for each delay
    elapsed, and of a burst of calls the last one only. *)
Theorem debounce_spec {Args : Type} (evs : list (Timers.event Args)) :
  Timers.made (foldl Timers.debounced_step Timers.debounce evs)
    = Timers.settled_calls evs ∧
  Timers.made (foldl Timers.debounced_step Timers.debounce evs)
    `sublist_of` Timers.calls evs ∧
  length (Timers.made (foldl Timers.debounced_step Timers.debounce evs))
    ≤ Timers.elapses evs ∧
  ∀ (burst : list Args) (a : Args),
    Timers.made
      (foldl Timers.debounced_step Timers.debounce
         ((Timers.Call <$> burst) ++ [Timers.Call a; Timers.Elapse]))
    = [a].
Proof.
  assert (H : ∀ evs : list (Timers.event Args),
    Timers.made (foldl Timers.debounced_step Timers.debounce evs)
    = Timers.settled_calls evs).
  { intros evs'. by rewrite debounced_run. }
  rewrite H. split_and!.
  - done.
  - apply settled_calls_sublist.
  - apply length_settled_calls.
  - intros burst a. rewrite H. apply settled_calls_burst.
Qed.


(** * A marker inside a bracket, and a failure after clearing *)

(** C1, as stated, fails: in [see [1, 2 and [manual.pdf#3]] the well-formed
    marker [[manual.pdf#3]] begins at position 14, and another one, with
    the file name [1, 2 and [manual.pdf], at position 4; the renderer
    makes one citation element, for the latter, and none carries the file
    name [manual.pdf]. *)
Lemma renderContent_marker_inside_bracket :
  bracketed_text =
    js "see [1, 2 and " ++ marker_text (js "manual.pdf") (js "3") ∧
  well_formed (js "manual.pdf") (js "3") ∧
  marker_at (drop 14 bracketed_text) ∧
  marker_at (drop 4 bracketed_text) ∧
  citations (renderContent bracketed_text) =
    [(js "1, 2 and [manual.pdf", Some (js "3"))] ∧
  (js "manual.pdf", Some (js "3")) ∉ citations (renderContent bracketed_text).
Proof.
  assert (citations (renderContent bracketed_text) =
          [(js "1, 2 and [manual.pdf", Some (js "3"))]) as Hcit
    by (vm_compute; reflexivity).
  split_and!.
  - reflexivity.
  - split_and!; [discriminate|compute_done|discriminate|].
    repeat constructor.
  - apply marker_at_run. vm_compute. eauto.
  - apply marker_at_run. vm_compute. eauto.
  - exact Hcit.
  - rewrite Hcit. rewrite list_elem_of_singleton. discriminate.
Qed.

(** C3, as stated, fails: the transcript is empty when the question is
    submitted; the transcript is cleared while the call is pending; the
    call fails, and the transcript then holds the apology alone: it is
    longer by 1, not by 2. *)
Lemma failure_after_clear_adds_one :
  Chat.reachable cleared_then_failed ∧
  Chat.messages (Chat.ui typed_in) = [] ∧
  Chat.isLoading (Chat.ui typed_in) = false ∧
  truthy (trim (Chat.input (Chat.ui typed_in))) = true ∧
  Chat.messages (Chat.ui cleared_then_failed) =
    [ {| role := assistant;
         content := js "Sorry, I encountered an error: Network Error. Please try again." |} ] ∧
  length (Chat.messages (Chat.ui cleared_then_failed)) ≠
    length (Chat.messages (Chat.ui typed_in)) + 2.
Proof.
  assert (Chat.messages (Chat.ui cleared_then_failed) =
    [ {| role := assistant;
         content := js "Sorry, I encountered an error: Network Error. Please try again." |} ])
    as Hmsgs by (vm_compute; reflexivity).
  split_and!.
  - apply Chat.reachable_step, Chat.reachable_step, Chat.reachable_step,
      Chat.reachable_step, Chat.reachable_start.
  - reflexivity.
  - reflexivity.
  - reflexivity.
  - exact Hmsgs.
  - rewrite Hmsgs. cbn. lia.
Qed.
